(** * Verification of the utilities of [src/misc.go] (package [drive])

  The development embeds the functions of [misc.go] and settles the
  statements made about them:
  - [commonPrefix]            (module [Prefix]),
  - [memoizeBytes] / [prettyBytes]   (module [Bytes]),
  - [remotePathSplit]         (module [PathSplit]),
  - [readCommentedFile]       (module [Commented]),
  - [toDesktopEntry] / [serializeAsDesktopEntry]  (module [Desktop]).

  Go strings are byte sequences: they are modelled by [string], whose
  characters ([ascii]) are exactly the 256 byte values.  A run-time panic
  (index out of range) is the [None] of the option monad. *)

From Stdlib Require Import ZArith String Ascii List Bool Lia DecimalString.
From Stdlib Require Import SpecFloat.
From stdpp Require Import base option list strings gmap.

Local Open Scope string_scope.
Local Open Scope nat_scope.

(** ** The fragment of Go's runtime and of package [strings] used by the file *)

Module Go.

(** [s[i]]: the byte at index [i]; out of range panics. *)
Definition index (s : string) (i : nat) : option ascii := String.get i s.

(** [len(s)] *)
Definition len (s : string) : nat := String.length s.

(** [make([]byte, n)]: [n] zero bytes. *)
Definition make_bytes (n : nat) : list ascii := replicate n zero.

(** [string(b)] for a byte slice [b]. *)
Definition string_of_bytes (b : list ascii) : string := string_of_list_ascii b.

(** [strings.HasPrefix(s, prefix)] *)
Definition HasPrefix (s pre : string) : bool := String.prefix pre s.

(** [strings.Join(elems, sep)] *)
Fixpoint Join (elems : list string) (sep : string) : string :=
  match elems with
  | [] => ""
  | [e] => e
  | e :: rest => e ++ sep ++ Join rest sep
  end.

(** Splitting at the occurrences of a non-empty separator, from left to
    right and without overlap.  [skip] counts the bytes of a matched
    separator that are still to be passed; the head of the result is the
    component in progress. *)
Fixpoint split_go (sep s : string) (skip : nat) : list string :=
  match s with
  | "" => [""]
  | String c s' =>
      match skip with
      | S k => split_go sep s' k
      | O =>
          if String.prefix sep s
          then "" :: split_go sep s' (len sep - 1)
          else match split_go sep s' 0 with
               | comp :: comps => String c comp :: comps
               | [] => [String c ""]
               end
      end
  end.

(** One string per byte: what Go's [explode] gives on ASCII text. *)
Fixpoint explode (s : string) : list string :=
  match s with
  | "" => []
  | String c s' => String c "" :: explode s'
  end.

(** [strings.Split(s, sep)].  With an empty separator Go splits after each
    UTF-8 sequence; [misc.go] never does that, and the model then splits
    after each byte. *)
Definition Split (s sep : string) : list string :=
  if String.eqb sep "" then explode s else split_go sep s 0.

(** Replacing the occurrences of a non-empty [old], from left to right and
    without overlap, while the budget [n] is not zero (a negative budget
    never runs out). *)
Fixpoint replace_go (old new s : string) (skip : nat) (n : Z) : string :=
  match s with
  | "" => ""
  | String c s' =>
      match skip with
      | S k => replace_go old new s' k n
      | O =>
          if (n =? 0)%Z then s
          else if String.prefix old s
               then new ++ replace_go old new s' (len old - 1) (n - 1)
               else String c (replace_go old new s' 0 n)
      end
  end.

(** [new] before each byte and after the last one, [n] times at most. *)
Fixpoint insert_each (new s : string) (n : Z) : string :=
  if (n =? 0)%Z then s
  else match s with
       | "" => new
       | String c s' => new ++ String c (insert_each new s' (n - 1))
       end.

(** [strings.Replace(s, old, new, n)].  With an empty [old] Go inserts
    [new] around each UTF-8 sequence; [misc.go] never does that, and the
    model then inserts around each byte. *)
Definition Replace (s old new : string) (n : Z) : string :=
  if String.eqb old "" then insert_each new s n else replace_go old new s 0 n.

(** Membership of a byte in a cutset. *)
Fixpoint in_cutset (c : ascii) (cutset : string) : bool :=
  match cutset with
  | "" => false
  | String d cutset' => Ascii.eqb c d || in_cutset c cutset'
  end.

(** [strings.TrimLeft(s, cutset)] for an ASCII cutset. *)
Fixpoint TrimLeft (s cutset : string) : string :=
  match s with
  | "" => ""
  | String c s' => if in_cutset c cutset then TrimLeft s' cutset else s
  end.

(** [strings.TrimRight(s, cutset)] for an ASCII cutset. *)
Fixpoint TrimRight (s cutset : string) : string :=
  match s with
  | "" => ""
  | String c s' =>
      match TrimRight s' cutset with
      | "" => if in_cutset c cutset then "" else String c ""
      | t => String c t
      end
  end.

(** [strings.Trim(s, cutset)] for an ASCII cutset: the bytes of the cutset
    are removed at both ends. *)
Definition Trim (s cutset : string) : string :=
  TrimLeft (TrimRight s cutset) cutset.

(** The decimal digits of a natural number, as [%d] prints them. *)
Definition decimal (n : N) : string := NilEmpty.string_of_uint (N.to_uint n).

(** ["\n"], ["\r"] *)
Definition LF : ascii := ascii_of_nat 10.
Definition CR : ascii := ascii_of_nat 13.

(** Go's [error] values; [nil] is [None] in an [option error]. *)
Definition error : Type := string.

End Go.

(** ** [commonPrefix] *)

Module Prefix.

(** State of the first loop: [(min, minLen, minIndex)]. *)
Definition shortest_state : Type := string * nat * nat.

(** The loop [for i := 1; i < vLen; i += 1] over [values[i:]].  [None] is
    the early [return ""] taken at an empty string. *)
Fixpoint shortest_loop (rest : list string) (i : nat) (st : shortest_state)
  : option shortest_state :=
  match rest with
  | [] => Some st
  | s :: rest' =>
      if String.eqb s "" then None
      else
        let '(min, minLen, minIndex) := st in
        let lst := Go.len s in
        if lst <? minLen
        then shortest_loop rest' (S i) (s, lst, i + 0)
        else shortest_loop rest' (S i) (min, minLen, minIndex)
  end.

(** The loop [for j, other := range values] at byte position [i].  It
    returns the value of [matchOn] when the loop is left (it is entered with
    [matchOn = true]); an index out of range panics. *)
Fixpoint range_values (rest : list string) (j minIndex : nat) (min : string)
                      (i : nat) : option bool :=
  match rest with
  | [] => Some true
  | other :: rest' =>
      if minIndex =? j then range_values rest' (S j) minIndex min i
      else
        a ← Go.index other i;
        b ← Go.index min i;
        if Ascii.eqb a b
        then range_values rest' (S j) minIndex min i
        else Some false
  end.

(** The loop [for i := 0; i < minLen; i += 1]; [todo] is [minLen - i], the
    number of iterations still to run. *)
Fixpoint fill_loop (values : list string) (minIndex : nat) (min : string)
                   (todo i : nat) (prefix : list ascii) : option (list ascii) :=
  match todo with
  | O => Some prefix
  | S todo' =>
      matchOn ← range_values values 0 minIndex min i;
      if negb matchOn then Some prefix
      else
        b ← Go.index min i;
        fill_loop values minIndex min todo' (S i) (<[i := b]> prefix)
  end.

Definition commonPrefix (values : list string) : option string :=
  match values with
  | [] => Some ""
  | v0 :: rest =>
      match shortest_loop rest 1 (v0, Go.len v0, 0) with
      | None => Some ""
      | Some (min, minLen, minIndex) =>
          prefix ← fill_loop values minIndex min minLen 0 (Go.make_bytes minLen);
          Some (Go.string_of_bytes prefix)
      end
  end.

(** *** What the function computes, stated independently of the loops *)

(** The shortest argument, the first one among those of least length. *)
Fixpoint shortest_from (cur : string) (rest : list string) : string :=
  match rest with
  | [] => cur
  | s :: rest' =>
      if Go.len s <? Go.len cur then shortest_from s rest' else shortest_from cur rest'
  end.

Definition shortest (values : list string) : string :=
  match values with
  | [] => ""
  | v0 :: rest => shortest_from v0 rest
  end.

(** Number of leading byte positions at which [a] and [b] agree. *)
Fixpoint agree (a b : string) : nat :=
  match a, b with
  | String x a', String y b' => if Ascii.eqb x y then S (agree a' b') else 0
  | _, _ => 0
  end.

(** First position at which some argument differs from [m]; [len m] when
    there is none. *)
Fixpoint first_mismatch (m : string) (values : list string) : nat :=
  match values with
  | [] => Go.len m
  | v :: rest => Nat.min (agree m v) (first_mismatch m rest)
  end.

(** [s[:k]] *)
Definition slice_to (s : string) (k : nat) : string := String.substring 0 k s.

(** The substring of the shortest argument before the first mismatch. *)
Definition common_prefix_spec (values : list string) : string :=
  slice_to (shortest values) (first_mismatch (shortest values) values).

(** [n] NUL bytes. *)
Definition nuls (n : nat) : string := Go.string_of_bytes (replicate n zero).

(** What the code returns: the common prefix, padded with NUL bytes to the
    length of the shortest argument. *)
Definition padded_prefix (values : list string) : string :=
  let m := shortest values in
  let k := first_mismatch m values in
  slice_to m k ++ nuls (Go.len m - k).

End Prefix.


(** ** [memoizeBytes] and [prettyBytes] *)

Module Bytes.

(** [float64] is IEEE 754 binary64: the Standard Library's specification
    of floating-point numbers at precision 53 and maximal exponent 1024. *)
Definition prec : Z := 53.
Definition emax : Z := 1024.
Definition float64 : Type := spec_float.

(** The conversion [float64(b)] of an integer: rounding to nearest, ties
    to even. *)
Definition float64_of_int (b : Z) : float64 := binary_normalize prec emax b 0 false.

(** [x / y] and [x < y] on [float64], and [x >= y]. *)
Definition fdiv (x y : float64) : float64 := SFdiv prec emax x y.
Definition flt (x y : float64) : bool := SFltb x y.
Definition fge (x y : float64) : bool := SFleb y x.

Definition is_nan (x : float64) : bool :=
  match x with S754_nan => true | _ => false end.

(** A normal number of binary64: a mantissa of exactly 53 bits and an
    exponent in range. *)
Definition normal (m : positive) (e : Z) : Prop :=
  (2 ^ 52 ≤ Z.pos m < 2 ^ 53)%Z ∧ (-1074 ≤ e ≤ 971)%Z.

(** [var BytesPerKB = float64(1024)] *)
Definition BytesPerKB : float64 := float64_of_int 1024.

(** The untyped constant [1] of the comparison [bf/BytesPerKB < 1]. *)
Definition one : float64 := float64_of_int 1.

(** Rounding of the rational [num / 2^k] to an integer, ties to even. *)
Definition round_half_even (num : Z) (k : Z) : Z :=
  let d := (2 ^ k)%Z in
  let q := (num / d)%Z in
  let r := (num mod d)%Z in
  match (2 * r ?= d)%Z with
  | Lt => q
  | Gt => (q + 1)%Z
  | Eq => if Z.even q then q else (q + 1)%Z
  end.

(** Hundredths of the magnitude [m * 2^e], correctly rounded, as the
    verb [%.2f] rounds the exact decimal expansion of its argument. *)
Definition hundredths (m : positive) (e : Z) : Z :=
  if (0 <=? e)%Z then (100 * Z.pos m * 2 ^ e)%Z
  else round_half_even (100 * Z.pos m) (- e).

Definition two_digits (n : Z) : string :=
  Go.decimal (Z.to_N (n / 10)) ++ Go.decimal (Z.to_N (n mod 10)).

(** The digits of [h] hundredths: integer part, point, two decimals. *)
Definition fixed2 (h : Z) : string :=
  Go.decimal (Z.to_N (h / 100)) ++ "." ++ two_digits (h mod 100).

(** [fmt.Sprintf("%.2f", bf)] *)
Definition sprintf_2f (bf : float64) : string :=
  match bf with
  | S754_zero s => (if s then "-" else "") ++ "0.00"
  | S754_infinity s => if s then "-Inf" else "+Inf"
  | S754_nan => "NaN"
  | S754_finite s m e => (if s then "-" else "") ++ fixed2 (hundredths m e)
  end.

(** [fmt.Sprintf("%.2f%s", bf, suffix)] *)
Definition sprintf_2f_s (bf : float64) (suffix : string) : string :=
  sprintf_2f bf ++ suffix.

Definition suffixes : list string := ["B"; "KB"; "MB"; "GB"; "TB"; "PB"].
Definition maxLen : nat := length suffixes - 1.

(** Outcome of running a loop with a bound on its iterations. *)
Inductive outcome (A : Type) : Type :=
| Done (a : A)
| Panic
| OutOfFuel.
Arguments Done {A} a.
Arguments Panic {A}.
Arguments OutOfFuel {A}.

(** The [for] loop of the closure, started at [(bf, i)]; each iteration
    uses one unit of [fuel]. *)
Fixpoint describe_loop (fuel : nat) (bf : float64) (i : nat) : outcome string :=
  match fuel with
  | O => OutOfFuel
  | S fuel' =>
      if flt (fdiv bf BytesPerKB) one || (maxLen <=? i)
      then match suffixes !! i with
           | Some suffix => Done (sprintf_2f_s bf suffix)
           | None => Panic
           end
      else describe_loop fuel' (fdiv bf BytesPerKB) (i + 1)
  end.

(** The loop leaves after at most [maxLen + 1] iterations
    ([describe_loop_enough_fuel] below). *)
Definition describe (b : Z) : outcome string :=
  describe_loop (S maxLen) (float64_of_int b) 0.

(** The closure returned by [memoizeBytes], as a function of the captured
    [cache]: the description and the cache after the call. *)
Definition byteDescription (cache : gmap Z string) (b : Z)
  : outcome (string * gmap Z string) :=
  match cache !! b with
  | Some description => Done (description, cache)
  | None =>
      match describe b with
      | Done description => Done (description, <[b := description]> cache)
      | Panic => Panic
      | OutOfFuel => OutOfFuel
      end
  end.

(** [memoizeBytes()]: a closure over a fresh, empty cache. *)
Definition memoizeBytes : gmap Z string := ∅.

(** The cache of an instance after one more call. *)
Definition cache_step (cache : gmap Z string) (b : Z) : gmap Z string :=
  match byteDescription cache b with
  | Done (_, cache') => cache'
  | _ => cache
  end.

(** [var prettyBytes = memoizeBytes()]: the cache of the instance after the
    calls of [history], oldest first. *)
Definition prettyBytes_cache (history : list Z) : gmap Z string :=
  fold_left cache_step history memoizeBytes.

(** [prettyBytes(b)] after the calls of [history]. *)
Definition prettyBytes (history : list Z) (b : Z) : outcome string :=
  match byteDescription (prettyBytes_cache history) b with
  | Done (description, _) => Done description
  | Panic => Panic
  | OutOfFuel => OutOfFuel
  end.

(** Invariant of the cache: every entry is the description of its key. *)
Definition cache_ok (cache : gmap Z string) : Prop :=
  ∀ k v, cache !! k = Some v → describe k = Done v.

(** *** The algorithm in the words of its specification *)

(** "while bf/1024 >= 1 and i is less than the index of PB, divide bf by
    1024 and increment i": [steps] bounds the number of divisions, and the
    result is the pair reached when the loop is left. *)
Fixpoint spec_while (steps : nat) (bf : float64) (i : nat) : float64 * nat :=
  match steps with
  | O => (bf, i)
  | S steps' =>
      if fge (fdiv bf BytesPerKB) one && (i <? 5)
      then spec_while steps' (fdiv bf BytesPerKB) (i + 1)
      else (bf, i)
  end.

(** The unit of index [i] among B, KB, MB, GB, TB, PB. *)
Definition spec_unit (i : nat) : string :=
  match i with
  | 0 => "B" | 1 => "KB" | 2 => "MB" | 3 => "GB" | 4 => "TB" | _ => "PB"
  end.

(** "then format bf with exactly two fractional digits followed by the
    i-th unit".  The index grows at each division and stays below the
    index of PB, so five divisions are all the loop can make. *)
Definition spec_prettyBytes (b : Z) : string :=
  let '(bf, i) := spec_while 5 (float64_of_int b) 0 in
  sprintf_2f bf ++ spec_unit i.

End Bytes.

(** ** [remotePathSplit] *)

Module PathSplit.

(** The slice expression [l[lo:hi]]; it panics unless
    [0 <= lo <= hi <= len(l)]. *)
Definition slice {A : Type} (l : list A) (lo hi : Z) : option (list A) :=
  if ((0 <=? lo)%Z && (lo <=? hi)%Z && (hi <=? Z.of_nat (length l))%Z)%bool
  then Some (take (Z.to_nat hi - Z.to_nat lo) (drop (Z.to_nat lo) l))
  else None.

Definition remotePathSplit (p : string) : option (string * string) :=
  let sp := Go.Split p "/" in
  let spl := Z.of_nat (length sp) in
  dirL ← slice sp 0 (spl - 1);
  baseL ← slice sp (spl - 1) spl;
  let dir := Go.Join dirL "/" in
  let base := Go.Join baseL "/" in
  Some (dir, base).

End PathSplit.

(** ** [readCommentedFile] *)

Module Commented.

(** ["\n"] and [" "] *)
Definition newline : string := String Go.LF "".
Definition space : string := " ".

(** An open [*os.File], for reading: the bytes that reading it delivers
    until the end of the file or the first read error. *)
Record File : Type := { data : string }.

(** The operating system, as far as the function sees it: the answer
    [(f, fErr)] of [os.Open] at each path. *)
Record OS : Type := { Open : string → option File * option Go.error }.

(** [bufio.MaxScanTokenSize] *)
Definition MaxScanTokenSize : nat := 64 * 1024.

(** [dropCR] of package [bufio], on the bytes of a line stored last byte
    first. *)
Definition dropCR (cur : list ascii) : list ascii :=
  match cur with
  | c :: cur' => if Ascii.eqb c Go.CR then cur' else cur
  | [] => []
  end.

Definition token (cur : list ascii) : string :=
  Go.string_of_bytes (reverse (dropCR cur)).

(** The tokens that the successive calls of [Scan] deliver for a scanner
    made by [bufio.NewScanner] (split function [ScanLines], token buffer of
    [MaxScanTokenSize] bytes).  [cur] holds the bytes of the line in
    progress, the last one first.  A line ends at ["\n"]; one ["\r"] before
    it is dropped; a last line without ["\n"] is delivered when it is not
    empty.  A line that does not fit in the buffer together with its
    ["\n"] stops the scanner for good ([ErrTooLong]): [Scan] is false from
    then on. *)
Fixpoint scan_lines (rest : string) (cur : list ascii) : list string :=
  match rest with
  | "" =>
      match cur with
      | [] => []
      | _ => if length cur <? MaxScanTokenSize then [token cur] else []
      end
  | String c rest' =>
      if Ascii.eqb c Go.LF
      then if length cur <? MaxScanTokenSize
           then token cur :: scan_lines rest' []
           else []
      else scan_lines rest' (c :: cur)
  end.

(** [bufio.NewScanner(f)]: a scanner is the list of the tokens still to
    come; [Scan] is true and [Text] is the head while the list is not
    empty. *)
Definition NewScanner (f : File) : list string := scan_lines (data f) [].

(** The loop [for { if !scanner.Scan() { break } ... }], with the value of
    [clauses] so far. *)
Fixpoint scan_loop (scanner : list string) (comment : string)
                   (clauses : list string) : list string :=
  match scanner with
  | [] => clauses
  | text :: scanner' =>
      let line := text in
      let line := Go.Trim line space in
      let line := Go.Trim line newline in
      if Go.HasPrefix line comment || (Go.len line <? 1)
      then scan_loop scanner' comment clauses
      else scan_loop scanner' comment (clauses ++ [line])
  end.

(** The results [(clauses, err)]; no clause at all is Go's [nil] slice.  The
    deferred [f.Close()] changes nothing that the model holds. *)
Definition readCommentedFile (os : OS) (p comment : string)
  : list string * option Go.error :=
  let '(f, fErr) := Open os p in
  match fErr, f with
  | Some _, _ | None, None => ([], fErr)
  | None, Some f =>
      let scanner := NewScanner f in
      (scan_loop scanner comment [], None)
  end.

(** *** The lines of a text, for the statement of what is read *)

(** The text before the first ["\n"], and what follows it, if any. *)
Fixpoint cut_line (s : string) : string * option string :=
  match s with
  | "" => ("", None)
  | String c s' =>
      if Ascii.eqb c Go.LF then ("", Some s')
      else let '(l, r) := cut_line s' in (String c l, r)
  end.

(** The lines of [s]: the pieces between its ["\n"], an empty piece after
    the last ["\n"] not counted.  [n] bounds the number of lines. *)
Fixpoint lines_upto (n : nat) (s : string) : list string :=
  match n with
  | O => []
  | S n' =>
      match cut_line s with
      | (l, Some r) => l :: lines_upto n' r
      | (l, None) => if String.eqb l "" then [] else [l]
      end
  end.

Definition lines (s : string) : list string := lines_upto (S (Go.len s)) s.

(** A line without the ["\r"] that may end it. *)
Definition chomp (l : string) : string :=
  Go.string_of_bytes (reverse (dropCR (reverse (list_ascii_of_string l)))).

(** A line without the spaces around it. *)
Definition trim_spaces (l : string) : string := Go.Trim l space.

(** The lines that are kept: not empty and not starting with the marker. *)
Definition kept (comment line : string) : bool :=
  negb (String.eqb line "" || Go.HasPrefix line comment).

(** "trim each line, skip it when it is empty or starts with the comment
    marker, append the others in order". *)
Definition spec_clauses (text comment : string) : list string :=
  filter (λ l, kept comment l = true) (map (λ l, trim_spaces (chomp l)) (lines text)).

(** The trimming that the loop applies to a token. *)
Definition loop_trim (text : string) : string := Go.Trim (Go.Trim text space) newline.

(** The skip test of the loop, negated. *)
Definition loop_keeps (comment line : string) : bool :=
  negb (Go.HasPrefix line comment || (Go.len line <? 1)).

(** Every line of the text fits in the token buffer of the scanner. *)
Definition fits_scanner (text : string) : bool :=
  forallb (λ l, Go.len l <? MaxScanTokenSize) (lines text).

(** [c] does not occur in [s]. *)
Definition free_of (c : ascii) (s : string) : Prop := Go.in_cutset c s = false.

(** A text of [n] bytes [c]. *)
Definition repeat_byte (c : ascii) (n : nat) : string :=
  Go.string_of_bytes (replicate n c).

(** An operating system where every path opens on a file of content
    [text], and one where [os.Open] fails with [e]. *)
Definition os_with (text : string) : OS :=
  {| Open := λ _, (Some {| data := text |}, None) |}.
Definition os_failing (e : Go.error) : OS :=
  {| Open := λ _, (None, Some e) |}.

(** ["# comment\n\nkeep-this\n  \nkeep-that  \n"] *)
Definition sample_text : string :=
  "# comment" ++ newline ++ newline ++ "keep-this" ++ newline
  ++ "  " ++ newline ++ "keep-that  " ++ newline.

(** A line of [MaxScanTokenSize] bytes, then the line ["keep-this"]. *)
Definition long_text : string :=
  repeat_byte "a" MaxScanTokenSize ++ newline ++ "keep-this" ++ newline.

End Commented.

(** ** [toDesktopEntry] and [serializeAsDesktopEntry] *)

Module Desktop.

Definition MimeTypeJoiner : string := "-".

(** The remote [File]: only its [Name] is read here. *)
Record File : Type := { Name : string }.

(** [urlMimeTypeExt], as the two methods use it. *)
Record urlMimeTypeExt : Type := { ext : string; mimeType : string; url : string }.

Record desktopEntry : Type := { de_name : string; de_url : string; de_icon : string }.

Definition sepJoin (sep : string) (args : list string) : string := Go.Join args sep.

(** The local file system: the content of each file, the paths that
    [os.Create] refuses (with its error), and the fault that ends a write
    early, if any: the number of bytes that still get written, and the
    error. *)
Record OS : Type := {
  files : gmap string string;
  create_error : string → option Go.error;
  write_fault : option (nat * Go.error)
}.

(** [os.Create(path)]: the file is created or truncated; the handle is the
    path. *)
Definition Create (os : OS) (path : string) : OS * (option string * option Go.error) :=
  match create_error os path with
  | Some e => (os, (None, Some e))
  | None =>
      ({| files := <[path := ""]> (files os);
          create_error := create_error os;
          write_fault := write_fault os |}, (Some path, None))
  end.

(** Writing [text] at the end of the file of [handle]: the bytes written
    and the error. *)
Definition Write (os : OS) (handle text : string) : OS * (Z * option Go.error) :=
  let '(written, err) :=
    match write_fault os with
    | Some (k, e) =>
        if k <? Go.len text then (String.substring 0 k text, Some e) else (text, None)
    | None => (text, None)
    end in
  ({| files := <[handle := default "" (files os !! handle) ++ written]> (files os);
      create_error := create_error os;
      write_fault := write_fault os |},
   (Z.of_nat (Go.len written), err)).

(** No fault ends the writing of [text] early. *)
Definition write_completes (os : OS) (text : string) : bool :=
  match write_fault os with
  | Some (k, _) => Go.len text <=? k
  | None => true
  end.

Definition nl : string := String Go.LF "".

Section Constants.

(** Modelled from the spec: the constants [LinkKey] ("a constant type
    marker") and [UnescapedPathSep] (the "path-separator character", as a
    string) are declared in files of the package that are not in
    [misc.go]; they are parameters here. *)
Variable LinkKey : string.
Variable PathSeparator : ascii.

Definition UnescapedPathSep : string := String PathSeparator "".

Definition toDesktopEntry (f : File) (urlMExt : urlMimeTypeExt) : desktopEntry :=
  let name := Name f in
  let name := if negb (String.eqb (ext urlMExt) "")
              then sepJoin "-" [Name f; ext urlMExt]
              else name in
  {| de_name := name; de_url := url urlMExt; de_icon := mimeType urlMExt |}.

(** [fmt.Sprintf("[Desktop Entry]\nIcon=%s\nName=%s\nType=%s\nURL=%s\n", ...)] *)
Definition entry_text (icon name type url : string) : string :=
  "[Desktop Entry]" ++ nl ++ "Icon=" ++ icon ++ nl ++ "Name=" ++ name ++ nl
  ++ "Type=" ++ type ++ nl ++ "URL=" ++ url ++ nl.

(** The results [(n, err)] and the file system after the call; the deferred
    [handle.Close()] changes nothing that the model holds. *)
Definition serializeAsDesktopEntry (os : OS) (f : File) (destPath : string)
                                   (urlMExt : urlMimeTypeExt)
  : OS * (Z * option Go.error) :=
  let deskEnt := toDesktopEntry f urlMExt in
  match Create os destPath with
  | (os1, (Some handle, None)) =>
      let icon := Go.Replace (de_icon deskEnt) UnescapedPathSep MimeTypeJoiner (-1) in
      Write os1 handle (entry_text icon (de_name deskEnt) LinkKey (de_url deskEnt))
  | (os1, (_, err)) => (os1, (0%Z, err))
  end.

(** *** The fields in the words of the specification *)

(** "every path separator replaced by "-"" *)
Fixpoint spec_icon (contentType : string) : string :=
  match contentType with
  | "" => ""
  | String c rest =>
      if Ascii.eqb c PathSeparator then "-" ++ spec_icon rest
      else String c (spec_icon rest)
  end.

(** ""<display name>-<extension>" when the extension is non-empty and
    the display name unchanged otherwise" *)
Definition spec_name (displayName extension : string) : string :=
  if String.eqb extension "" then displayName
  else displayName ++ "-" ++ extension.

(** The lines of the file: the header and the four fields. *)
Definition spec_lines (displayName targetURL contentType extension : string)
  : list string :=
  [ "[Desktop Entry]";
    "Icon=" ++ spec_icon contentType;
    "Name=" ++ spec_name displayName extension;
    "Type=" ++ LinkKey;
    "URL=" ++ targetURL ].

(** A text made of lines, each followed by ["\n"]. *)
Fixpoint unlines (ls : list string) : string :=
  match ls with
  | [] => ""
  | l :: ls' => l ++ nl ++ unlines ls'
  end.

End Constants.

(** A file system without files, where nothing fails. *)
Definition empty_os : OS :=
  {| files := ∅; create_error := λ _, None; write_fault := None |}.

End Desktop.

(** ** [isHidden], and notions used to state further properties *)

Module Misc.

Definition isHidden (p : string) (ignore : bool) : bool :=
  if Go.HasPrefix p "." then negb ignore else false.

(** The first and the last byte of a string, if any. *)
Definition first_byte (s : string) : option ascii := Go.index s 0.
Definition last_byte (s : string) : option ascii := Go.index s (Go.len s - 1).

(** [s] begins each of the [values]. *)
Definition common_prefix (s : string) (values : list string) : Prop :=
  ∀ v, v ∈ values → String.prefix s v = true.

(** The text with each ["\n"] turned into ["\r\n"]. *)
Fixpoint crlf (s : string) : string :=
  match s with
  | "" => ""
  | String c s' =>
      if Ascii.eqb c Go.LF then String Go.CR (String Go.LF (crlf s'))
      else String c (crlf s')
  end.

(** A display name that holds a newline: ["Doc\nExec=sh -c evil"]. *)
Definition name_with_newline : string :=
  "Doc" ++ Desktop.nl ++ "Exec=sh -c evil".

End Misc.
(** ** Bytes of a string *)

Section StringFacts.

Lemma index_lookup (s : string) (i : nat) :
  Go.index s i = list_ascii_of_string s !! i.
Proof.
  unfold Go.index. revert i.
  induction s as [|c s IH]; intros [|i]; simpl; auto.
Qed.

Lemma len_bytes (s : string) : Go.len s = length (list_ascii_of_string s).
Proof. unfold Go.len. induction s; simpl; auto. Qed.

Lemma string_of_bytes_app (l1 l2 : list ascii) :
  Go.string_of_bytes (l1 ++ l2)%list = (Go.string_of_bytes l1 ++ Go.string_of_bytes l2)%string.
Proof.
  unfold Go.string_of_bytes.
  induction l1 as [|c l1 IH]; simpl; [reflexivity|]. now rewrite IH.
Qed.

Lemma string_of_bytes_take (s : string) (k : nat) :
  Go.string_of_bytes (take k (list_ascii_of_string s)) = String.substring 0 k s.
Proof.
  unfold Go.string_of_bytes. revert k.
  induction s as [|c s IH]; intros [|k]; simpl; try reflexivity.
  now rewrite IH.
Qed.

Lemma len_string_of_bytes (l : list ascii) :
  Go.len (Go.string_of_bytes l) = length l.
Proof.
  unfold Go.len, Go.string_of_bytes. induction l; simpl; auto.
Qed.

Lemma len_append (s t : string) :
  Go.len (s ++ t)%string = Go.len s + Go.len t.
Proof. unfold Go.len. induction s; simpl; auto. Qed.

Lemma len_zero (s : string) : Go.len s = 0 → s = ""%string.
Proof. destruct s; simpl; [reflexivity | discriminate]. Qed.

Lemma index_append_l (s t : string) (i : nat) :
  i < Go.len s → Go.index (s ++ t)%string i = Go.index s i.
Proof.
  unfold Go.index, Go.len. revert i.
  induction s as [|c s IH]; intros i Hi; simpl in *; [lia|].
  destruct i; [reflexivity|]. apply IH. lia.
Qed.

Lemma index_append_r (s t : string) (i : nat) :
  Go.len s ≤ i → Go.index (s ++ t)%string i = Go.index t (i - Go.len s).
Proof.
  unfold Go.index, Go.len. revert i.
  induction s as [|c s IH]; intros i Hi; simpl in *.
  - now rewrite Nat.sub_0_r.
  - destruct i; [lia|]. apply IH. lia.
Qed.

Lemma len_substring_0 (s : string) (k : nat) :
  k ≤ Go.len s → Go.len (String.substring 0 k s) = k.
Proof.
  unfold Go.len. revert k.
  induction s as [|c s IH]; intros [|k] Hk; simpl in *; try lia.
  rewrite IH; lia.
Qed.

Lemma index_substring_0 (s : string) (k i : nat) :
  i < k → Go.index (String.substring 0 k s) i = Go.index s i.
Proof.
  unfold Go.index. revert k i.
  induction s as [|c s IH]; intros [|k] [|i] Hi; simpl; try lia; try reflexivity.
  apply IH. lia.
Qed.

Lemma substring_0_all (s : string) : String.substring 0 (Go.len s) s = s.
Proof. unfold Go.len. induction s; simpl; congruence. Qed.

Lemma index_nuls (n i : nat) :
  i < n → Go.index (Prefix.nuls n) i = Some zero.
Proof.
  intros Hi. unfold Prefix.nuls. rewrite index_lookup.
  unfold Go.string_of_bytes. rewrite list_ascii_of_string_of_list_ascii.
  now apply lookup_replicate_2.
Qed.

End StringFacts.


(** ** Facts on [float64] *)

Section FloatFacts.
Import Bytes.

(** Comparing the other way round gives the opposite answer. *)
Lemma SFcompare_antisym (x y : float64) (c : comparison) :
  SFcompare x y = Some c → SFcompare y x = Some (CompOpp c).
Proof.
  destruct x as [sx|sx| |sx mx ex], y as [sy|sy| |sy my ey]; simpl;
    try discriminate;
    try (intros [= <-]; destruct sx; try destruct sy; reflexivity).
  intros [= <-]. f_equal.
  rewrite (Z.compare_antisym ex ey).
  change (Pos.compare_cont Eq my mx) with (Pos.compare my mx).
  change (Pos.compare_cont Eq mx my) with (Pos.compare mx my).
  rewrite (Pos.compare_antisym mx my).
  destruct sx, sy; try reflexivity;
    destruct (ex ?= ey)%Z; simpl; try reflexivity;
    destruct (mx ?= my)%positive; reflexivity.
Qed.

Lemma SFcompare_some (x y : float64) :
  is_nan x = false → is_nan y = false → ∃ c, SFcompare x y = Some c.
Proof.
  destruct x, y; simpl; intros Hx Hy; try discriminate; eauto.
Qed.

(** Away from NaN, [x < y] is the negation of [x >= y]. *)
Lemma flt_not_fge (x y : float64) :
  is_nan x = false → is_nan y = false → flt x y = negb (fge x y).
Proof.
  intros Hx Hy. unfold flt, fge, SFltb, SFleb.
  destruct (SFcompare_some x y Hx Hy) as [c Hc].
  rewrite Hc, (SFcompare_antisym x y c Hc). now destruct c.
Qed.

(** *** Rounding never makes a NaN *)

Lemma shr_1_nonneg (mrs : shr_record) :
  (0 ≤ shr_m mrs)%Z → (0 ≤ shr_m (shr_1 mrs))%Z.
Proof.
  destruct mrs as [m r s]. simpl. intros Hm.
  destruct m as [|[p|p|]|p]; simpl; lia.
Qed.

Lemma iter_pos_invariant {A : Type} (P : A → Prop) (f : A → A) :
  (∀ x, P x → P (f x)) → ∀ (p : positive) (x : A), P x → P (SpecFloat.iter_pos f p x).
Proof.
  intros Hf. induction p as [p IH|p IH|]; intros x Hx; simpl; auto.
Qed.

Lemma shr_fexp_nonneg (m e : Z) (l : location) :
  (0 ≤ m)%Z → (0 ≤ shr_m (fst (shr_fexp prec emax m e l)))%Z.
Proof.
  intros Hm. unfold shr_fexp, shr.
  assert (H0 : (0 ≤ shr_m (shr_record_of_loc m l))%Z)
    by (destruct l as [|[]]; exact Hm).
  destruct (_ - e)%Z as [|p|p]; cbn [fst]; try exact H0.
  now apply (iter_pos_invariant (λ mrs, (0 ≤ shr_m mrs)%Z) shr_1 shr_1_nonneg).
Qed.

Lemma round_nearest_even_nonneg (m : Z) (l : location) :
  (0 ≤ m)%Z → (0 ≤ round_nearest_even m l)%Z.
Proof.
  intros Hm. destruct l as [|[]]; simpl; try lia.
  destruct (Z.even m); lia.
Qed.

Lemma binary_round_aux_not_nan (sx : bool) (mx ex : Z) (lx : location) :
  (0 ≤ mx)%Z → is_nan (binary_round_aux prec emax sx mx ex lx) = false.
Proof.
  intros Hm. unfold binary_round_aux.
  pose proof (shr_fexp_nonneg mx ex lx Hm) as H1.
  destruct (shr_fexp prec emax mx ex lx) as [mrs' e']. cbn [fst] in H1.
  pose proof (shr_fexp_nonneg _ e' loc_Exact
                (round_nearest_even_nonneg _ (loc_of_shr_record mrs') H1)) as H2.
  destruct (shr_fexp prec emax _ e' loc_Exact) as [mrs'' e'']. cbn [fst] in H2.
  destruct (shr_m mrs'') as [|m|m]; [reflexivity| |lia].
  now destruct (_ <=? _)%Z.
Qed.

Lemma float64_of_int_not_nan (b : Z) : is_nan (float64_of_int b) = false.
Proof.
  unfold float64_of_int, binary_normalize, binary_round.
  destruct b as [|m|m]; [reflexivity| |];
    destruct (shl_align _ _ _) as [mz ez]; now apply binary_round_aux_not_nan.
Qed.

Lemma BytesPerKB_value : BytesPerKB = S754_finite false 4503599627370496 (-42).
Proof. vm_compute. reflexivity. Qed.

Lemma one_value : one = S754_finite false 4503599627370496 (-52).
Proof. vm_compute. reflexivity. Qed.

Lemma SFdiv_core_binary_nonneg (m1 m2 : positive) (e1 e2 : Z) :
  (0 ≤ fst (fst (SFdiv_core_binary prec emax (Z.pos m1) e1 (Z.pos m2) e2)))%Z.
Proof.
  unfold SFdiv_core_binary.
  set (s := (_ - _ - _)%Z).
  set (m' := match s with Z0 => Z.pos m1 | Z.pos _ => Z.shiftl (Z.pos m1) s | Z.neg _ => 0%Z end).
  assert (Hm' : (0 ≤ m')%Z).
  { subst m'. destruct s; try lia. apply Z.shiftl_nonneg. lia. }
  pose proof (Z.div_pos m' (Z.pos m2) Hm' ltac:(lia)) as Hq.
  unfold Z.div in Hq.
  destruct (Z.div_eucl m' (Z.pos m2)) as [q r]. exact Hq.
Qed.

(** Dividing by 1024 never makes a NaN of a number. *)
Lemma fdiv_BytesPerKB_not_nan (x : float64) :
  is_nan x = false → is_nan (fdiv x BytesPerKB) = false.
Proof.
  rewrite BytesPerKB_value. unfold fdiv.
  destruct x as [sx|sx| |sx mx ex]; intros Hx; try discriminate; try reflexivity.
  unfold SFdiv.
  pose proof (SFdiv_core_binary_nonneg mx 4503599627370496 ex (-42)) as Hq.
  destruct (SFdiv_core_binary _ _ _ _ _ _) as [[mz ez] lz]. cbn [fst] in Hq.
  now apply binary_round_aux_not_nan.
Qed.

Lemma one_not_nan : is_nan one = false.
Proof. now rewrite one_value. Qed.

End FloatFacts.

(** ** Normal numbers: exact conversion and exact division by 1024 *)

Section FloatNormal.
Import Bytes.

Local Open Scope Z_scope.

Lemma digits2_pos_log2 (p : positive) :
  Z.pos (digits2_pos p) = Z.log2 (Z.pos p) + 1.
Proof.
  assert (Hsize : ∀ q, digits2_pos q = Pos.size q)
    by (induction q as [q IH|q IH|]; simpl; congruence).
  rewrite Hsize. destruct p as [p|p|]; simpl; lia.
Qed.

Lemma digits2_pos_bounds (p : positive) (d : Z) :
  2 ^ (d - 1) ≤ Z.pos p < 2 ^ d → Z.pos (digits2_pos p) = d.
Proof.
  intros Hp. rewrite digits2_pos_log2.
  assert (0 < d).
  { destruct (Z.lt_ge_cases 0 d) as [|Hd]; [assumption|].
    rewrite (Z.pow_neg_r 2 (d - 1)) in Hp by lia.
    destruct (Z.eq_dec d 0) as [->|]; [simpl in Hp; lia|].
    rewrite (Z.pow_neg_r 2 d) in Hp by lia. lia. }
  rewrite (Z.log2_unique (Z.pos p) (d - 1)); [lia | lia |].
  replace (Z.succ (d - 1)) with d by lia. exact Hp.
Qed.

Lemma digits2_pos_spec (p : positive) :
  2 ^ (Z.pos (digits2_pos p) - 1) ≤ Z.pos p < 2 ^ Z.pos (digits2_pos p).
Proof.
  rewrite digits2_pos_log2.
  replace (Z.log2 (Z.pos p) + 1 - 1) with (Z.log2 (Z.pos p)) by lia.
  replace (Z.log2 (Z.pos p) + 1) with (Z.succ (Z.log2 (Z.pos p))) by lia.
  apply Z.log2_spec. lia.
Qed.

Lemma fexp_normal (x : Z) : -1021 ≤ x → fexp prec emax x = x - 53.
Proof. intros Hx. unfold fexp, SpecFloat.emin, prec, emax. lia. Qed.

Lemma shr_fexp_normal (m : positive) (e : Z) :
  normal m e →
  shr_fexp prec emax (Z.pos m) e loc_Exact
  = ({| shr_m := Z.pos m; shr_r := false; shr_s := false |}, e).
Proof.
  intros [Hm He]. unfold shr_fexp. cbn [Zdigits2].
  rewrite (digits2_pos_bounds m 53) by exact Hm.
  rewrite fexp_normal by lia.
  replace (53 + e - 53 - e) with 0 by lia. reflexivity.
Qed.

(** A normal number is not changed by rounding. *)
Lemma binary_round_aux_normal (s : bool) (m : positive) (e : Z) :
  normal m e →
  binary_round_aux prec emax s (Z.pos m) e loc_Exact = S754_finite s m e.
Proof.
  intros Hn. pose proof Hn as [Hm He].
  unfold binary_round_aux. rewrite (shr_fexp_normal m e Hn).
  cbn [shr_m loc_of_shr_record round_nearest_even].
  rewrite (shr_fexp_normal m e Hn). cbn [shr_m].
  destruct (Z.leb_spec e (emax - prec)) as [|Hgt]; [reflexivity|].
  unfold emax, prec in Hgt. lia.
Qed.

Lemma SFdiv_core_binary_1024 (m : positive) (e : Z) :
  normal m e → -1021 ≤ e →
  SFdiv_core_binary prec emax (Z.pos m) e (Z.pos 4503599627370496) (-42)
  = (Z.pos m~0, e - 11, loc_Exact).
Proof.
  intros [Hm He] Hlow. unfold SFdiv_core_binary. cbn [Zdigits2].
  rewrite (digits2_pos_bounds m 53) by exact Hm.
  rewrite (digits2_pos_bounds 4503599627370496 53) by (vm_compute; split; congruence).
  rewrite fexp_normal by lia.
  replace (Z.min (53 + e - (53 + -42) - 53) (e - -42)) with (e - 11) by lia.
  replace (e - -42 - (e - 11)) with 53 by lia.
  assert (Hdiv : Z.div_eucl (Z.shiftl (Z.pos m) 53) (Z.pos 4503599627370496)
                 = (Z.pos m~0, 0)).
  { rewrite Z.shiftl_mul_pow2 by lia.
    pose proof (Z.div_eucl_eq (Z.pos m * 2 ^ 53) (Z.pos 4503599627370496) ltac:(lia)) as Heq.
    pose proof (Z.mod_pos_bound (Z.pos m * 2 ^ 53) (Z.pos 4503599627370496) ltac:(lia)) as Hr.
    unfold Z.modulo in Hr.
    destruct (Z.div_eucl (Z.pos m * 2 ^ 53) (Z.pos 4503599627370496)) as [q r].
    change (2 ^ 53) with (2 * 4503599627370496) in Heq.
    f_equal; lia. }
  rewrite Hdiv. reflexivity.
Qed.

(** Dividing a normal number by 1024 lowers its exponent by 10. *)
Lemma fdiv_normal (s : bool) (m : positive) (e : Z) :
  normal m e → -1021 ≤ e →
  fdiv (S754_finite s m e) BytesPerKB = S754_finite s m (e - 10).
Proof.
  intros Hn Hlow. pose proof Hn as [Hm He].
  rewrite BytesPerKB_value. unfold fdiv, SFdiv.
  rewrite (SFdiv_core_binary_1024 m e Hn Hlow).
  assert (Hshr : shr_fexp prec emax (Z.pos m~0) (e - 11) loc_Exact
                 = ({| shr_m := Z.pos m; shr_r := false; shr_s := false |}, e - 10)).
  { unfold shr_fexp. cbn [Zdigits2].
    rewrite (digits2_pos_bounds m~0 54) by (rewrite Pos2Z.inj_xO; change (2 ^ (54 - 1)) with (2 * 2 ^ 52); change (2 ^ 54) with (2 * 2 ^ 53); lia).
    rewrite fexp_normal by lia.
    replace (54 + (e - 11) - 53 - (e - 11)) with 1 by lia.
    cbn. f_equal. lia. }
  assert (Hn' : normal m (e - 10)) by (split; [exact Hm | lia]).
  unfold binary_round_aux. rewrite Hshr.
  cbn [shr_m loc_of_shr_record round_nearest_even].
  rewrite (shr_fexp_normal m (e - 10) Hn'). cbn [shr_m].
  rewrite xorb_false_r.
  destruct (Z.leb_spec (e - 10) (emax - prec)) as [|Hgt]; [reflexivity|].
  unfold emax, prec in Hgt. lia.
Qed.

(** *** Conversion of a positive integer *)

Lemma shr_1_half (mrs : shr_record) :
  0 ≤ shr_m mrs → shr_m (shr_1 mrs) = shr_m mrs / 2.
Proof.
  destruct mrs as [m r s]. cbn [shr_m]. intros Hm.
  destruct m as [|[p|p|]|p]; cbn [shr_1 shr_m]; try lia.
  - reflexivity.
  - rewrite Pos2Z.inj_xI. apply (Z.div_unique _ _ _ 1); lia.
  - rewrite Pos2Z.inj_xO. apply (Z.div_unique _ _ _ 0); lia.
  - reflexivity.
Qed.

Lemma iter_shr_1 (n : positive) (mrs : shr_record) :
  0 ≤ shr_m mrs →
  shr_m (SpecFloat.iter_pos shr_1 n mrs) = shr_m mrs / 2 ^ Z.pos n.
Proof.
  assert (Hnn : ∀ k x, 0 ≤ shr_m x → 0 ≤ shr_m (SpecFloat.iter_pos shr_1 k x))
    by (intros k x; apply (iter_pos_invariant (λ y, 0 ≤ shr_m y) shr_1 shr_1_nonneg)).
  revert mrs. induction n as [n IH|n IH|]; intros mrs Hm; cbn [SpecFloat.iter_pos].
  - assert (Hpow : 2 ^ Z.pos n~1 = 2 * 2 ^ Z.pos n * 2 ^ Z.pos n).
    { assert (Z.pos n~1 = 1 + Z.pos n + Z.pos n) as -> by lia.
      rewrite !Z.pow_add_r by lia. change (2 ^ 1) with 2. reflexivity. }
    assert (0 < 2 ^ Z.pos n) by (apply Z.pow_pos_nonneg; lia).
    rewrite IH, IH, shr_1_half by auto using shr_1_nonneg.
    rewrite (Z.div_div (shr_m mrs / 2)), (Z.div_div (shr_m mrs)) by lia.
    rewrite Hpow. f_equal. lia.
  - assert (Hpow : 2 ^ Z.pos n~0 = 2 ^ Z.pos n * 2 ^ Z.pos n).
    { assert (Z.pos n~0 = Z.pos n + Z.pos n) as -> by lia.
      now rewrite Z.pow_add_r by lia. }
    assert (0 < 2 ^ Z.pos n) by (apply Z.pow_pos_nonneg; lia).
    rewrite IH, IH by auto.
    rewrite Z.div_div by lia. now rewrite Hpow.
  - rewrite shr_1_half by exact Hm. reflexivity.
Qed.

Lemma iter_xO (k p : positive) : Z.pos (Pos.iter xO p k) = Z.pos p * 2 ^ Z.pos k.
Proof.
  induction k as [|k IH] using Pos.peano_ind.
  - cbn [Pos.iter]. rewrite Pos2Z.inj_xO. change (2 ^ 1) with 2. lia.
  - rewrite Pos.iter_succ, Pos2Z.inj_xO, IH, Pos2Z.inj_succ, Z.pow_succ_r by lia. lia.
Qed.

(** The conversion of a positive integer of [d] bits is a normal number of
    exponent [d - 53], or [d - 52] when rounding carries. *)
Lemma float64_of_int_pos (p : positive) :
  Z.pos (digits2_pos p) ≤ 1000 →
  ∃ m e, float64_of_int (Z.pos p) = S754_finite false m e
         ∧ normal m e
         ∧ Z.pos (digits2_pos p) - 53 ≤ e ≤ Z.pos (digits2_pos p) - 52.
Proof.
  intros Hd. pose proof (digits2_pos_spec p) as Hp.
  set (d := Z.pos (digits2_pos p)) in *.
  assert (0 < d) by (subst d; lia).
  unfold float64_of_int, binary_normalize, binary_round, shl_align.
  fold d. replace (d + 0) with d by lia. rewrite fexp_normal by lia.
  replace (d - 53 - 0) with (d - 53) by lia.
  destruct (d - 53) as [|n|k] eqn:Hn.
  - (* exactly 53 bits *)
    assert (Hnorm : normal p 0).
    { split; [|lia]. replace 52 with (d - 1) by lia. replace 53 with d by lia. exact Hp. }
    exists p, 0. rewrite binary_round_aux_normal by exact Hnorm.
    split; [reflexivity|]. split; [exact Hnorm | lia].
  - (* more than 53 bits: the low bits are rounded away *)
    unfold binary_round_aux.
    assert (Hshr : shr_fexp prec emax (Z.pos p) 0 loc_Exact
                   = (SpecFloat.iter_pos shr_1 n
                        {| shr_m := Z.pos p; shr_r := false; shr_s := false |}, Z.pos n)).
    { unfold shr_fexp. cbn [Zdigits2]. fold d. replace (d + 0) with d by lia.
      rewrite fexp_normal by lia.
      replace (d - 53 - 0) with (d - 53) by lia. rewrite Hn. reflexivity. }
    rewrite Hshr.
    set (mrs := SpecFloat.iter_pos shr_1 n _).
    assert (Hm1 : 2 ^ 52 ≤ shr_m mrs < 2 ^ 53).
    { subst mrs. rewrite iter_shr_1 by (cbn; lia). cbn [shr_m].
      assert (Hpow : 2 ^ d = 2 ^ 53 * 2 ^ Z.pos n)
        by (rewrite <- Z.pow_add_r by lia; f_equal; lia).
      assert (Hpow' : 2 ^ (d - 1) = 2 ^ 52 * 2 ^ Z.pos n)
        by (rewrite <- Z.pow_add_r by lia; f_equal; lia).
      assert (0 < 2 ^ Z.pos n) by (apply Z.pow_pos_nonneg; lia).
      split.
      - apply Z.div_le_lower_bound; [lia|]. rewrite Z.mul_comm. lia.
      - apply Z.div_lt_upper_bound; [lia|]. rewrite Z.mul_comm. lia. }
    set (m2 := round_nearest_even (shr_m mrs) (loc_of_shr_record mrs)).
    assert (Hm2 : 2 ^ 52 ≤ m2 ≤ 2 ^ 53).
    { subst m2. destruct (loc_of_shr_record mrs) as [|[]]; cbn [round_nearest_even];
        try destruct (Z.even (shr_m mrs)); lia. }
    destruct (Z.eq_dec m2 (2 ^ 53)) as [Hcarry|Hnocarry].
    + (* rounding carried to 2^53 *)
      rewrite Hcarry.
      assert (Hshr2 : shr_fexp prec emax (2 ^ 53) (Z.pos n) loc_Exact
                      = ({| shr_m := 2 ^ 52; shr_r := false; shr_s := false |}, Z.pos n + 1)).
      { unfold shr_fexp. change (Zdigits2 (2 ^ 53)) with 54.
        rewrite fexp_normal by lia.
        replace (54 + Z.pos n - 53 - Z.pos n) with 1 by lia. reflexivity. }
      rewrite Hshr2. cbn [shr_m]. change (2 ^ 52) with (Z.pos 4503599627370496).
      cbv iota beta.
      destruct (Z.leb_spec (Z.pos n + 1) (emax - prec)) as [|Hgt];
        [|unfold emax, prec in Hgt; lia].
      exists 4503599627370496%positive, (Z.pos n + 1).
      split; [reflexivity|]. split; [|lia].
      split; [|lia]. split; [reflexivity | reflexivity].
    + destruct m2 as [|m2'|m2'] eqn:Hm2'; try (exfalso; lia).
      assert (Hnorm : normal m2' (Z.pos n)) by (split; lia).
      rewrite (shr_fexp_normal m2' (Z.pos n) Hnorm). cbn [shr_m].
      destruct (Z.leb_spec (Z.pos n) (emax - prec)) as [|Hgt];
        [|unfold emax, prec in Hgt; lia].
      exists m2', (Z.pos n). split; [reflexivity|]. split; [exact Hnorm | lia].
  - (* fewer than 53 bits: the mantissa is shifted left *)
    assert (Hnorm : normal (Pos.iter xO p k) (Z.neg k)).
    { split; [|lia]. rewrite iter_xO.
      assert (Hpow : 2 ^ 53 = 2 ^ d * 2 ^ Z.pos k)
        by (rewrite <- Z.pow_add_r by lia; f_equal; lia).
      assert (Hpow' : 2 ^ 52 = 2 ^ (d - 1) * 2 ^ Z.pos k)
        by (rewrite <- Z.pow_add_r by lia; f_equal; lia).
      assert (0 < 2 ^ Z.pos k) by (apply Z.pow_pos_nonneg; lia).
      rewrite Hpow, Hpow'. split; [apply Z.mul_le_mono_nonneg_r | apply Z.mul_lt_mono_pos_r]; lia. }
    exists (Pos.iter xO p k), (Z.neg k).
    rewrite binary_round_aux_normal by exact Hnorm.
    split; [reflexivity|]. split; [exact Hnorm | lia].
Qed.

(** A normal number of exponent [-52] or more is at least 1. *)
Lemma fge_one_normal (m : positive) (e : Z) :
  normal m e → -52 ≤ e → fge (S754_finite false m e) one = true.
Proof.
  intros [Hm _] He. rewrite one_value. unfold fge, SFleb, SFcompare.
  destruct (Z.compare_spec (-52) e) as [Heq|Hlt|Hgt]; [|reflexivity|lia].
  change (Pos.compare_cont Eq 4503599627370496 m) with (4503599627370496 ?= m)%positive.
  destruct (Pos.compare_spec 4503599627370496 m) as [| |Hgt]; try reflexivity.
  change (2 ^ 52) with (Z.pos 4503599627370496) in Hm.
  destruct Hm as [Hle _]. apply Pos2Z.pos_lt_pos in Hgt.
  exfalso. apply (Z.lt_irrefl (Z.pos m)). now apply (Z.lt_le_trans _ _ _ Hgt).
Qed.

(** From a normal number that is at least [1024 ^ k], the loop of the
    specification makes [k] divisions, as long as units are left. *)
Lemma spec_while_saturates (k : nat) (m : positive) (e : Z) (i : nat) :
  normal m e → 10 * Z.of_nat k - 52 ≤ e → (i + k = 5)%nat →
  spec_while k (S754_finite false m e) i
  = (S754_finite false m (e - 10 * Z.of_nat k), 5%nat).
Proof.
  revert e i. induction k as [|k IH]; intros e i Hn He Hi.
  - cbn [spec_while]. replace (e - 10 * Z.of_nat 0) with e by lia.
    f_equal. lia.
  - pose proof Hn as [Hm Hrange].
    assert (Hn' : normal m (e - 10)) by (split; [exact Hm | lia]).
    cbn [spec_while]. rewrite (fdiv_normal false m e Hn) by lia.
    rewrite (fge_one_normal m (e - 10) Hn') by lia.
    destruct (Nat.ltb_spec i 5) as [_|]; [|lia]. cbn [andb].
    rewrite (IH (e - 10) (i + 1)%nat Hn') by lia.
    f_equal. f_equal. lia.
Qed.

(** From the threshold of PB on, the unit is PB. *)
Lemma spec_prettyBytes_PB (b : Z) :
  2 ^ 50 ≤ b < 2 ^ 63 →
  ∃ m e, normal m e ∧ -52 ≤ e
         ∧ spec_prettyBytes b = (sprintf_2f (S754_finite false m e) ++ "PB")%string.
Proof.
  intros Hb. destruct b as [|p|p]; try lia.
  pose proof (digits2_pos_spec p) as Hp.
  assert (Hd : 51 ≤ Z.pos (digits2_pos p) ≤ 63).
  { split.
    - destruct (Z.lt_ge_cases (Z.pos (digits2_pos p)) 51) as [Hlt|]; [|assumption].
      assert (2 ^ Z.pos (digits2_pos p) ≤ 2 ^ 50) by (apply Z.pow_le_mono_r; lia). lia.
    - destruct (Z.lt_ge_cases 63 (Z.pos (digits2_pos p))) as [Hlt|]; [|lia].
      assert (2 ^ 63 ≤ 2 ^ (Z.pos (digits2_pos p) - 1)) by (apply Z.pow_le_mono_r; lia). lia. }
  destruct (float64_of_int_pos p ltac:(lia)) as (m & e & Hf & Hn & He).
  pose proof Hn as [Hm Hrange].
  exists m, (e - 50). split; [split; [exact Hm | lia]|]. split; [lia|].
  unfold spec_prettyBytes. rewrite Hf.
  rewrite (spec_while_saturates 5 m e 0 Hn) by lia. reflexivity.
Qed.

End FloatNormal.

(** ** Exact conversions, signs and the choice of the unit *)

Section FloatExact.
Import Bytes.

Local Open Scope Z_scope.

(** Rounding keeps the sign. *)
Lemma binary_round_aux_sign (sx : bool) (mx ex : Z) (lx : location) :
  0 ≤ mx →
  match binary_round_aux prec emax sx mx ex lx with
  | S754_zero s | S754_infinity s | S754_finite s _ _ => s = sx
  | S754_nan => False
  end.
Proof.
  intros Hm. unfold binary_round_aux.
  pose proof (shr_fexp_nonneg mx ex lx Hm) as H1.
  destruct (shr_fexp prec emax mx ex lx) as [mrs' e']. cbn [fst] in H1.
  pose proof (shr_fexp_nonneg _ e' loc_Exact
                (round_nearest_even_nonneg _ (loc_of_shr_record mrs') H1)) as H2.
  destruct (shr_fexp prec emax _ e' loc_Exact) as [mrs'' e'']. cbn [fst] in H2.
  destruct (shr_m mrs'') as [|m|m]; [reflexivity| |lia].
  now destruct (_ <=? _).
Qed.

(** An integer of at most 53 bits is converted exactly. *)
Lemma binary_round_exact (s : bool) (p : positive) :
  Z.pos (digits2_pos p) ≤ 53 →
  ∃ m, binary_round prec emax s p 0 = S754_finite s m (Z.pos (digits2_pos p) - 53)
       ∧ normal m (Z.pos (digits2_pos p) - 53)
       ∧ Z.pos m = Z.pos p * 2 ^ (53 - Z.pos (digits2_pos p)).
Proof.
  intros Hd. pose proof (digits2_pos_spec p) as Hp.
  set (d := Z.pos (digits2_pos p)) in *.
  assert (0 < d) by (subst d; lia).
  unfold binary_round, shl_align.
  fold d. replace (d + 0) with d by lia. rewrite fexp_normal by lia.
  replace (d - 53 - 0) with (d - 53) by lia.
  destruct (d - 53) as [|n|k] eqn:Hn; [| lia |].
  - assert (Hnorm : normal p 0).
    { split; [|lia]. replace 52 with (d - 1) by lia. replace 53 with d by lia. exact Hp. }
    exists p. rewrite binary_round_aux_normal by exact Hnorm.
    split; [reflexivity|]. split; [exact Hnorm|].
    replace (53 - d) with 0 by lia. lia.
  - assert (Hval : Z.pos (Pos.iter xO p k) = Z.pos p * 2 ^ (53 - d)).
    { rewrite iter_xO. f_equal. f_equal. lia. }
    assert (Hnorm : normal (Pos.iter xO p k) (Z.neg k)).
    { split; [|lia]. rewrite iter_xO.
      assert (Hpow : 2 ^ 53 = 2 ^ d * 2 ^ Z.pos k)
        by (rewrite <- Z.pow_add_r by lia; f_equal; lia).
      assert (Hpow' : 2 ^ 52 = 2 ^ (d - 1) * 2 ^ Z.pos k)
        by (rewrite <- Z.pow_add_r by lia; f_equal; lia).
      assert (0 < 2 ^ Z.pos k) by (apply Z.pow_pos_nonneg; lia).
      rewrite Hpow, Hpow'.
      split; [apply Z.mul_le_mono_nonneg_r | apply Z.mul_lt_mono_pos_r]; lia. }
    exists (Pos.iter xO p k).
    rewrite binary_round_aux_normal by exact Hnorm.
    split; [reflexivity|]. split; [exact Hnorm | exact Hval].
Qed.

(** The hundredths of an integer held exactly are a hundred times it. *)
Lemma hundredths_exact (m p : positive) (e : Z) :
  e ≤ 0 → Z.pos m = Z.pos p * 2 ^ (- e) → hundredths m e = 100 * Z.pos p.
Proof.
  intros He Hm. unfold hundredths.
  assert (Hpos : 0 < 2 ^ (- e)) by (apply Z.pow_pos_nonneg; lia).
  destruct (Z.leb_spec 0 e) as [H0|Hneg].
  - assert (e = 0) as -> by lia. change (2 ^ (- 0)) with 1 in Hm.
    change (2 ^ 0) with 1. lia.
  - unfold round_half_even. rewrite Hm.
    replace (100 * (Z.pos p * 2 ^ (- e))) with (100 * Z.pos p * 2 ^ (- e)) by lia.
    rewrite Z.div_mul, Z.mod_mul by lia.
    destruct (Z.compare_spec (2 * 0) (2 ^ (- e))); lia.
Qed.

Lemma fixed2_exact (p : positive) :
  fixed2 (100 * Z.pos p) = (Go.decimal (N.pos p) ++ ".00")%string.
Proof.
  unfold fixed2.
  replace (100 * Z.pos p) with (Z.pos p * 100) by lia.
  rewrite Z.div_mul, Z.mod_mul by lia. reflexivity.
Qed.

(** [%.2f] of an integer held exactly: its digits and two zeros. *)
Lemma sprintf_2f_exact (s : bool) (m p : positive) (e : Z) :
  e ≤ 0 → Z.pos m = Z.pos p * 2 ^ (- e) →
  sprintf_2f (S754_finite s m e)
  = ((if s then "-" else "") ++ Go.decimal (N.pos p) ++ ".00")%string.
Proof.
  intros He Hm. unfold sprintf_2f.
  now rewrite (hundredths_exact m p e He Hm), fixed2_exact.
Qed.

(** A normal number of exponent below [-52] is less than 1. *)
Lemma fge_one_small (m : positive) (e : Z) :
  e < -52 → fge (S754_finite false m e) one = false.
Proof.
  intros He. rewrite one_value. unfold fge, SFleb, SFcompare.
  destruct (Z.compare_spec (-52) e); [lia | lia | reflexivity].
Qed.

(** Nothing that is negative or zero is at least 1. *)
Lemma fge_one_negative (x : float64) :
  match x with
  | S754_zero _ | S754_infinity true | S754_finite true _ _ => True
  | _ => False
  end →
  fge x one = false.
Proof.
  rewrite one_value. destruct x as [s|[|]| |[|] m e]; intros H; try contradiction; reflexivity.
Qed.

(** The loop of the specification from a normal number that is at least 1:
    it divides once for each full multiple of ten in [e + 52], five times at
    most. *)
Lemma spec_while_normal (k : nat) (m : positive) (e : Z) (i : nat) :
  normal m e → -52 ≤ e → (i ≤ 5)%nat → (5 - i ≤ k)%nat →
  spec_while k (S754_finite false m e) i
  = (S754_finite false m (e - 10 * Z.min ((e + 52) / 10) (5 - Z.of_nat i)),
     (i + Z.to_nat (Z.min ((e + 52) / 10) (5 - Z.of_nat i)))%nat).
Proof.
  revert e i. induction k as [|k IH]; intros e i Hn He Hi Hk.
  - assert (i = 5%nat) as -> by lia. cbn [spec_while].
    pose proof (Z.div_pos (e + 52) 10 ltac:(lia) ltac:(lia)) as Hq.
    change (Z.of_nat 5) with 5.
    replace (Z.min ((e + 52) / 10) (5 - 5)) with 0 by lia.
    apply pair_equal_spec; split; [f_equal; lia | lia].
  - pose proof Hn as [Hm Hrange].
    assert (Hn' : normal m (e - 10)) by (split; [exact Hm | lia]).
    pose proof (Z.div_pos (e + 52) 10 ltac:(lia) ltac:(lia)) as Hq.
    cbn [spec_while]. rewrite (fdiv_normal false m e Hn) by lia.
    destruct (Z.lt_ge_cases (e - 10) (-52)) as [Hsmall|Hbig].
    + rewrite fge_one_small by exact Hsmall. cbn [andb].
      rewrite (Z.div_small (e + 52) 10) by lia.
      replace (Z.min 0 (5 - Z.of_nat i)) with 0 by lia.
      apply pair_equal_spec; split; [f_equal; lia | lia].
    + rewrite (fge_one_normal m (e - 10) Hn') by lia. cbn [andb].
      destruct (Nat.ltb_spec i 5) as [Hlt|Hge].
      * rewrite (IH (e - 10) (i + 1)%nat Hn') by lia.
        assert (Hdiv : (e - 10 + 52) / 10 = (e + 52) / 10 - 1).
        { replace (e - 10 + 52) with (e + 52 + (-1) * 10) by lia.
          rewrite Z.div_add by lia. lia. }
        assert (Hq' : 1 ≤ (e + 52) / 10).
        { apply Z.div_le_lower_bound; lia. }
        rewrite Hdiv. set (q := (e + 52) / 10) in *.
        replace (Z.min (q - 1) (5 - Z.of_nat (i + 1)))
          with (Z.min q (5 - Z.of_nat i) - 1) by lia.
        apply pair_equal_spec; split; [f_equal; lia | lia].
      * set (q := (e + 52) / 10) in *.
        replace (Z.min q (5 - Z.of_nat i)) with 0 by lia.
        apply pair_equal_spec; split; [f_equal; lia | lia].
Qed.

(** From a number that is negative or zero the loop makes no division. *)
Lemma spec_while_negative (k : nat) (x : float64) :
  match fdiv x BytesPerKB with
  | S754_zero _ | S754_infinity true | S754_finite true _ _ => True
  | _ => False
  end →
  spec_while k x 0 = (x, 0%nat).
Proof.
  intros H. destruct k as [|k]; [reflexivity|].
  cbn [spec_while]. now rewrite (fge_one_negative _ H).
Qed.

Lemma fdiv_negative (m : positive) (e : Z) :
  match fdiv (S754_finite true m e) BytesPerKB with
  | S754_zero _ | S754_infinity true | S754_finite true _ _ => True
  | _ => False
  end.
Proof.
  rewrite BytesPerKB_value. unfold fdiv, SFdiv.
  pose proof (SFdiv_core_binary_nonneg m 4503599627370496 e (-42)) as Hq.
  destruct (SFdiv_core_binary _ _ _ _ _ _) as [[mz ez] lz]. cbn [fst] in Hq.
  pose proof (binary_round_aux_sign (xorb true false) mz ez lz Hq) as Hs.
  destruct (binary_round_aux _ _ _ _ _ _) as [s|s| |s m' e']; try contradiction;
    cbn [xorb] in Hs; subst s; exact I.
Qed.

Lemma float64_of_int_neg (p : positive) :
  ∃ x, float64_of_int (Z.neg p) = x
       ∧ match x with
         | S754_zero true | S754_infinity true | S754_finite true _ _ => True
         | _ => False
         end.
Proof.
  eexists. split; [reflexivity|].
  unfold float64_of_int, binary_normalize, binary_round.
  destruct (shl_align _ _ _) as [mz ez].
  pose proof (binary_round_aux_sign true (Z.pos mz) ez loc_Exact ltac:(lia)) as Hs.
  destruct (binary_round_aux _ _ _ _ _ _) as [s|s| |s m' e']; try contradiction;
    subst s; exact I.
Qed.

(** Numbers that are negative or zero are printed in B, undivided. *)
Lemma spec_prettyBytes_nonpositive (b : Z) :
  b ≤ 0 → spec_prettyBytes b = (sprintf_2f (float64_of_int b) ++ "B")%string.
Proof.
  intros Hb. unfold spec_prettyBytes.
  destruct b as [|p|p]; [reflexivity | lia |].
  destruct (float64_of_int_neg p) as (x & Hx & Hsign). rewrite Hx.
  rewrite spec_while_negative; [reflexivity|].
  destruct x as [[|]|[|]| |[|] m e]; try contradiction.
  - now rewrite BytesPerKB_value.
  - now rewrite BytesPerKB_value.
  - apply fdiv_negative.
Qed.

(** The unit of a positive [int64]: one step for each ten bits, PB at
    most; below PB the number printed is at least 1 and less than 1024. *)
Lemma spec_prettyBytes_unit (b : Z) :
  1 ≤ b < 2 ^ 63 →
  ∃ m e, normal m e ∧ -52 ≤ e ∧ (Z.log2 b < 50 → e < -42)
         ∧ spec_prettyBytes b
           = (sprintf_2f (S754_finite false m e)
              ++ spec_unit (Z.to_nat (Z.min (Z.log2 b / 10) 5)))%string.
Proof.
  intros Hb. destruct b as [|p|p]; try lia.
  pose proof (digits2_pos_log2 p) as Hd.
  assert (HL : 0 ≤ Z.log2 (Z.pos p) < 63).
  { split; [apply Z.log2_nonneg|]. apply Z.log2_lt_pow2; lia. }
  set (L := Z.log2 (Z.pos p)) in *.
  destruct (float64_of_int_pos p ltac:(lia)) as (m & e0 & Hf & Hn & He0).
  assert (Hexact : L < 53 → e0 = L - 52).
  { intros HL53. destruct (binary_round_exact false p ltac:(lia)) as (m1 & Hr & _ & _).
    change (binary_round prec emax false p 0) with (float64_of_int (Z.pos p)) in Hr.
    rewrite Hf in Hr. injection Hr as _ He. lia. }
  pose proof (Z.div_mod L 10 ltac:(lia)) as Hdm.
  pose proof (Z.mod_pos_bound L 10 ltac:(lia)) as Hmod.
  pose proof (Z.div_mod (e0 + 52) 10 ltac:(lia)) as Hdm0.
  pose proof (Z.mod_pos_bound (e0 + 52) 10 ltac:(lia)) as Hmod0.
  assert (Hj : Z.min ((e0 + 52) / 10) 5 = Z.min (L / 10) 5).
  { destruct (Z.lt_ge_cases L 53) as [Hlt|Hge].
    - rewrite (Hexact Hlt). f_equal. f_equal. lia.
    - assert (5 ≤ (e0 + 52) / 10) by (apply Z.div_le_lower_bound; lia).
      assert (5 ≤ L / 10) by (apply Z.div_le_lower_bound; lia).
      lia. }
  pose proof Hn as [Hm Hrange].
  exists m, (e0 - 10 * Z.min (L / 10) 5).
  split; [split; [exact Hm | lia]|].
  split; [lia|].
  split.
  { intros HL50. rewrite (Hexact ltac:(lia)). lia. }
  unfold spec_prettyBytes. rewrite Hf.
  rewrite (spec_while_normal 5 m e0 0 Hn) by lia.
  change (5 - Z.of_nat 0) with 5. rewrite Hj. reflexivity.
Qed.

(** A positive integer of at most 53 bits, printed undivided. *)
Lemma sprintf_2f_of_int (s : bool) (p : positive) :
  Z.pos p < 2 ^ 53 →
  sprintf_2f (binary_round prec emax s p 0)
  = ((if s then "-" else "") ++ Go.decimal (N.pos p) ++ ".00")%string.
Proof.
  intros Hp.
  assert (Hd : Z.pos (digits2_pos p) ≤ 53).
  { rewrite digits2_pos_log2.
    assert (Z.log2 (Z.pos p) < 53) by (apply Z.log2_lt_pow2; lia). lia. }
  destruct (binary_round_exact s p Hd) as (m & -> & _ & Hm).
  apply sprintf_2f_exact; [lia|].
  rewrite Hm. f_equal. f_equal. lia.
Qed.

End FloatExact.
(** ** Correctness of [commonPrefix] *)

Section PrefixFacts.
Import Prefix.

Lemma agree_le_l (a b : string) : agree a b ≤ Go.len a.
Proof.
  unfold Go.len. revert b.
  induction a as [|x a IH]; intros [|y b]; simpl; try lia.
  destruct (Ascii.eqb x y); [specialize (IH b)|]; lia.
Qed.

Lemma agree_le_r (a b : string) : agree a b ≤ Go.len b.
Proof.
  unfold Go.len. revert b.
  induction a as [|x a IH]; intros [|y b]; simpl; try lia.
  destruct (Ascii.eqb x y); [specialize (IH b)|]; lia.
Qed.

Lemma agree_refl (a : string) : agree a a = Go.len a.
Proof.
  unfold Go.len. induction a as [|x a IH]; simpl; [reflexivity|].
  now rewrite Ascii.eqb_refl, IH.
Qed.

(** Below [agree a b] the two strings carry the same byte. *)
Lemma agree_index_eq (a b : string) (i : nat) :
  i < agree a b → ∃ c, Go.index a i = Some c ∧ Go.index b i = Some c.
Proof.
  unfold Go.index. revert b i.
  induction a as [|x a IH]; intros [|y b] i Hi; simpl in *; try lia.
  destruct (Ascii.eqb_spec x y) as [->|]; [|lia].
  destruct i as [|i]; [eauto|]. apply IH. lia.
Qed.

(** At position [agree a b], when both strings are that long, the bytes
    differ. *)
Lemma agree_index_ne (a b : string) :
  agree a b < Go.len a → agree a b < Go.len b →
  ∃ x y, Go.index a (agree a b) = Some x ∧ Go.index b (agree a b) = Some y ∧ x ≠ y.
Proof.
  unfold Go.index, Go.len. revert b.
  induction a as [|x a IH]; intros [|y b] Ha Hb; simpl in *; try lia.
  destruct (Ascii.eqb_spec x y) as [->|Hne]; [|eauto].
  apply IH; lia.
Qed.

(** The comparison made by the inner loop at a position not beyond the
    agreement of the two strings. *)
Lemma compare_at (m v : string) (i : nat) :
  i ≤ agree m v → i < Go.len m → i < Go.len v →
  ∃ a b, Go.index v i = Some a ∧ Go.index m i = Some b
         ∧ Ascii.eqb a b = (i <? agree m v).
Proof.
  intros Hle Hm Hv.
  destruct (Nat.ltb_spec i (agree m v)) as [Hlt|Hge].
  - destruct (agree_index_eq m v i Hlt) as (c & Hc1 & Hc2).
    exists c, c. now rewrite Ascii.eqb_refl.
  - assert (i = agree m v) as -> by lia.
    destruct (agree_index_ne m v Hm Hv) as (x & y & Hx & Hy & Hne).
    exists y, x. repeat split; try assumption.
    apply Ascii.eqb_neq. congruence.
Qed.

Lemma first_mismatch_le_len (m : string) (values : list string) :
  first_mismatch m values ≤ Go.len m.
Proof. induction values; simpl; lia. Qed.

Lemma first_mismatch_le (m : string) (values : list string) (v : string) :
  v ∈ values → first_mismatch m values ≤ agree m v.
Proof.
  induction values as [|w values IH]; intros Hin; [inversion Hin|].
  apply elem_of_cons in Hin as [->|Hin]; simpl; [lia|].
  specialize (IH Hin). lia.
Qed.

Lemma first_mismatch_ge (m : string) (values : list string) (i : nat) :
  i ≤ Go.len m → (∀ v, v ∈ values → i ≤ agree m v) → i ≤ first_mismatch m values.
Proof.
  intros Hm. induction values as [|w values IH]; intros Hall; simpl; [assumption|].
  apply Nat.min_glb.
  - apply Hall. now left.
  - apply IH. intros v Hv. apply Hall. now right.
Qed.

(** *** The first loop *)

Lemma shortest_from_le_cur (cur : string) (rest : list string) :
  Go.len (shortest_from cur rest) ≤ Go.len cur.
Proof.
  revert cur. induction rest as [|s rest IH]; intros cur; simpl; [lia|].
  destruct (Nat.ltb_spec (Go.len s) (Go.len cur)); [|apply IH].
  specialize (IH s). lia.
Qed.

Lemma shortest_from_le (cur : string) (rest : list string) (v : string) :
  v ∈ rest → Go.len (shortest_from cur rest) ≤ Go.len v.
Proof.
  revert cur. induction rest as [|s rest IH]; intros cur Hin; [inversion Hin|].
  simpl. apply elem_of_cons in Hin as [->|Hin].
  - destruct (Nat.ltb_spec (Go.len s) (Go.len cur)) as [Hlt|Hge].
    + apply shortest_from_le_cur.
    + pose proof (shortest_from_le_cur cur rest). lia.
  - destruct (Go.len s <? Go.len cur); now apply IH.
Qed.

Lemma shortest_le (values : list string) (v : string) :
  v ∈ values → Go.len (shortest values) ≤ Go.len v.
Proof.
  destruct values as [|v0 rest]; intros Hin; [inversion Hin|].
  simpl. apply elem_of_cons in Hin as [->|Hin].
  - apply shortest_from_le_cur.
  - now apply shortest_from_le.
Qed.

(** An empty string among [values[1:]] takes the early return. *)
Lemma shortest_loop_empty (rest : list string) (i : nat) (st : shortest_state) :
  ""%string ∈ rest → shortest_loop rest i st = None.
Proof.
  revert i st. induction rest as [|s rest IH]; intros i st Hin; [inversion Hin|].
  cbn [shortest_loop]. destruct (String.eqb s "") eqn:E; [reflexivity|].
  apply String.eqb_neq in E.
  apply elem_of_cons in Hin as [Hs|Hin]; [congruence|].
  destruct st as [[min minLen] minIndex].
  destruct (Go.len s <? minLen); now apply IH.
Qed.

(** Otherwise the loop ends with the first shortest string, its length and
    an index at which it occurs. *)
Lemma shortest_loop_spec (pre rest : list string) (cur : string) (idx : nat) :
  ""%string ∉ rest →
  (pre ++ rest)%list !! idx = Some cur →
  ∃ idx', shortest_loop rest (length pre) (cur, Go.len cur, idx)
            = Some (shortest_from cur rest, Go.len (shortest_from cur rest), idx')
          ∧ (pre ++ rest)%list !! idx' = Some (shortest_from cur rest).
Proof.
  revert pre cur idx.
  induction rest as [|s rest IH]; intros pre cur idx Hne Hidx; cbn [shortest_loop shortest_from].
  - eauto.
  - destruct (String.eqb s "") eqn:E.
    { apply String.eqb_eq in E. subst s. exfalso. apply Hne. now left. }
    clear E.
    assert (Hne' : ""%string ∉ rest) by (intros H; apply Hne; now right).
    assert (Happ : (pre ++ s :: rest)%list = ((pre ++ [s]) ++ rest)%list)
      by now rewrite <- app_assoc.
    assert (Hlen : S (length pre) = length (pre ++ [s])%list)
      by (rewrite length_app; simpl; lia).
    rewrite Happ, Hlen.
    destruct (Go.len s <? Go.len cur).
    + apply IH; [assumption|].
      rewrite Nat.add_0_r, <- Happ. now apply list_lookup_middle.
    + apply IH; [assumption|]. now rewrite <- Happ.
Qed.

(** *** The inner loop *)

Lemma range_values_spec (rest : list string) (j minIndex : nat) (m : string) (i : nat) :
  i < Go.len m →
  (∀ v, v ∈ rest → Go.len m ≤ Go.len v) →
  (∀ v, v ∈ rest → i ≤ agree m v) →
  (∀ k v, rest !! k = Some v → minIndex = j + k → v = m) →
  range_values rest j minIndex m i = Some (forallb (λ v, i <? agree m v) rest).
Proof.
  intros Hi. revert j.
  induction rest as [|other rest IH]; intros j Hlen Hagree Hmin; [reflexivity|].
  assert (IH' : range_values rest (S j) minIndex m i
                = Some (forallb (λ v, i <? agree m v) rest)).
  { apply IH.
    - intros v Hv. apply Hlen. now right.
    - intros v Hv. apply Hagree. now right.
    - intros k v Hk Hj. apply (Hmin (S k) v); [exact Hk | lia]. }
  cbn [range_values forallb].
  destruct (Nat.eqb_spec minIndex j) as [Hj|Hj].
  - assert (other = m) as -> by (apply (Hmin 0 other); [reflexivity | lia]).
    rewrite agree_refl. rewrite IH'.
    destruct (Nat.ltb_spec i (Go.len m)); [reflexivity | lia].
  - destruct (compare_at m other i) as (a & b & Ha & Hb & Hab).
    + apply Hagree. now left.
    + exact Hi.
    + specialize (Hlen other ltac:(now left)). lia.
    + rewrite Ha, Hb. cbn [mbind option_bind]. rewrite Hab.
      destruct (i <? agree m other); [exact IH' | reflexivity].
Qed.

(** *** The outer loop *)

Lemma insert_next_byte (l : list ascii) (i todo : nat) (b : ascii) :
  l !! i = Some b →
  <[i := b]> (take i l ++ replicate (S todo) zero)%list
  = (take (S i) l ++ replicate todo zero)%list.
Proof.
  intros Hb.
  assert (Hi : i < length l) by (eapply lookup_lt_Some; eauto).
  rewrite insert_app_r_alt by (rewrite length_take; lia).
  rewrite length_take, Nat.min_l, Nat.sub_diag by lia.
  cbn. rewrite (take_S_r _ _ _ Hb), <- app_assoc. reflexivity.
Qed.

Lemma fill_loop_spec (values : list string) (minIndex : nat) (m : string)
                     (todo i : nat) :
  values !! minIndex = Some m →
  (∀ v, v ∈ values → Go.len m ≤ Go.len v) →
  i + todo = Go.len m →
  (∀ v, v ∈ values → i ≤ agree m v) →
  fill_loop values minIndex m todo i
            (take i (list_ascii_of_string m) ++ replicate todo zero)%list
  = Some (take (first_mismatch m values) (list_ascii_of_string m)
          ++ replicate (Go.len m - first_mismatch m values) zero)%list.
Proof.
  intros Hmin Hlen. revert i.
  induction todo as [|todo IH]; intros i Hi Hagree.
  - cbn [fill_loop].
    pose proof (first_mismatch_le_len m values).
    pose proof (first_mismatch_ge m values i ltac:(lia) Hagree).
    replace (first_mismatch m values) with i by lia.
    replace (Go.len m - i) with 0 by lia. reflexivity.
  - cbn [fill_loop].
    rewrite (range_values_spec values 0 minIndex m i); try assumption; try lia.
    2:{ intros k v Hk ->. simpl in Hmin. congruence. }
    cbn [mbind option_bind].
    destruct (forallb (λ v, i <? agree m v) values) eqn:Hall; cbn [negb].
    + rewrite forallb_forall in Hall.
      destruct (Go.index m i) as [b|] eqn:Hb.
      2:{ rewrite index_lookup in Hb. apply lookup_ge_None in Hb.
          rewrite <- len_bytes in Hb. lia. }
      cbn [mbind option_bind].
      rewrite index_lookup in Hb.
      rewrite (insert_next_byte _ _ _ _ Hb).
      apply IH; [lia|].
      intros v Hv. apply list_elem_of_In, Hall, Nat.ltb_lt in Hv. lia.
    + pose proof (first_mismatch_ge m values i ltac:(lia) Hagree) as Hge.
      assert (Hle : first_mismatch m values ≤ i).
      { destruct (Nat.le_gt_cases (first_mismatch m values) i) as [|Hgt]; [assumption|].
        assert (forallb (λ v, i <? agree m v) values = true) as Htrue; [|congruence].
        apply forallb_forall. intros v Hv. apply list_elem_of_In in Hv.
        apply Nat.ltb_lt. pose proof (first_mismatch_le m values v Hv). lia. }
      replace (first_mismatch m values) with i by lia.
      replace (Go.len m - i) with (S todo) by lia. reflexivity.
Qed.

(** *** The whole function: it never panics and returns [padded_prefix] *)

Lemma slice_to_empty (k : nat) : slice_to "" k = ""%string.
Proof. now destruct k. Qed.

Lemma padded_prefix_shortest_empty (values : list string) :
  shortest values = ""%string → padded_prefix values = ""%string.
Proof.
  intros H. unfold padded_prefix. rewrite H, slice_to_empty. reflexivity.
Qed.

Lemma commonPrefix_padded (values : list string) :
  commonPrefix values = Some (padded_prefix values).
Proof.
  destruct values as [|v0 rest]; [reflexivity|].
  unfold commonPrefix.
  destruct (decide (""%string ∈ rest)) as [Hin|Hnin].
  - rewrite shortest_loop_empty by assumption.
    rewrite padded_prefix_shortest_empty; [reflexivity|].
    apply len_zero.
    pose proof (shortest_le (v0 :: rest) "" ltac:(now right)) as H.
    unfold Go.len in *. simpl in *. lia.
  - destruct (shortest_loop_spec [v0] rest v0 0 Hnin eq_refl) as (idx & Hloop & Hidx).
    cbn [length app] in Hloop, Hidx. rewrite Hloop.
    change (shortest_from v0 rest) with (shortest (v0 :: rest)) in *.
    set (values := v0 :: rest) in *. set (m := shortest values) in *.
    pose proof (fill_loop_spec values idx m (Go.len m) 0 Hidx) as Hfill.
    rewrite take_0, app_nil_l in Hfill. unfold Go.make_bytes.
    rewrite Hfill.
    + cbn [mbind option_bind]. unfold padded_prefix. fold m.
      now rewrite string_of_bytes_app, string_of_bytes_take.
    + intros v Hv. now apply shortest_le.
    + reflexivity.
    + intros; lia.
Qed.

(** *** Consequences *)

(** The first mismatch is a position of agreement of every argument... *)
Lemma before_first_mismatch (m : string) (values : list string) (v : string) (i : nat) :
  v ∈ values → i < first_mismatch m values → Go.index v i = Go.index m i.
Proof.
  intros Hv Hi. pose proof (first_mismatch_le m values v Hv).
  destruct (agree_index_eq m v i ltac:(lia)) as (c & -> & ->). reflexivity.
Qed.

Lemma first_mismatch_attained (m : string) (values : list string) :
  first_mismatch m values = Go.len m
  ∨ ∃ v, v ∈ values ∧ agree m v = first_mismatch m values.
Proof.
  induction values as [|w values IH]; [now left|]. cbn [first_mismatch].
  destruct (Nat.min_spec (agree m w) (first_mismatch m values)) as [[_ ->]|[_ ->]].
  - right. exists w. split; [now left | reflexivity].
  - destruct IH as [IH|(v & Hv & IH)]; [now left|].
    right. exists v. split; [now right | exact IH].
Qed.

(** ... and, before the end of [m], a position where one of them differs. *)
Lemma at_first_mismatch (m : string) (values : list string) :
  (∀ v, v ∈ values → Go.len m ≤ Go.len v) →
  first_mismatch m values < Go.len m →
  ∃ v, v ∈ values
       ∧ Go.index v (first_mismatch m values) ≠ Go.index m (first_mismatch m values).
Proof.
  intros Hlen Hk.
  destruct (first_mismatch_attained m values) as [|(v & Hv & Hag)]; [lia|].
  exists v. split; [exact Hv|]. rewrite <- Hag in *.
  destruct (agree_index_ne m v Hk) as (x & y & -> & -> & Hne).
  - specialize (Hlen v Hv). lia.
  - congruence.
Qed.

Lemma len_padded_prefix (values : list string) :
  Go.len (padded_prefix values) = Go.len (shortest values).
Proof.
  unfold padded_prefix, slice_to, nuls.
  pose proof (first_mismatch_le_len (shortest values) values).
  rewrite len_append, len_substring_0, len_string_of_bytes, length_replicate by lia.
  lia.
Qed.

Lemma index_padded_prefix_l (values : list string) (i : nat) :
  i < first_mismatch (shortest values) values →
  Go.index (padded_prefix values) i = Go.index (shortest values) i.
Proof.
  intros Hi. unfold padded_prefix, slice_to.
  pose proof (first_mismatch_le_len (shortest values) values).
  rewrite index_append_l by (rewrite len_substring_0; lia).
  now apply index_substring_0.
Qed.

Lemma index_padded_prefix_r (values : list string) (i : nat) :
  first_mismatch (shortest values) values ≤ i → i < Go.len (shortest values) →
  Go.index (padded_prefix values) i = Some zero.
Proof.
  intros Hk Hi. unfold padded_prefix, slice_to.
  pose proof (first_mismatch_le_len (shortest values) values).
  rewrite index_append_r; rewrite len_substring_0 by lia; [|lia].
  apply index_nuls. lia.
Qed.

Lemma shortest_empty (values : list string) :
  ""%string ∈ values → shortest values = ""%string.
Proof.
  intros Hin. apply len_zero.
  pose proof (shortest_le values "" Hin) as H. unfold Go.len in *. simpl in H. lia.
Qed.

Lemma string_app_cancel_nil (s t : string) : (s ++ t)%string = s → t = ""%string.
Proof.
  intros H. apply len_zero. apply (f_equal Go.len) in H.
  rewrite len_append in H. lia.
Qed.

(** The result is the common prefix exactly when no argument differs from
    the shortest one before its end. *)
Lemma commonPrefix_meets_spec_iff (values : list string) :
  commonPrefix values = Some (common_prefix_spec values)
  ↔ first_mismatch (shortest values) values = Go.len (shortest values).
Proof.
  rewrite commonPrefix_padded. unfold padded_prefix, common_prefix_spec.
  pose proof (first_mismatch_le_len (shortest values) values) as Hle.
  split.
  - intros [= H]. apply string_app_cancel_nil in H.
    apply (f_equal Go.len) in H. unfold nuls in H.
    rewrite len_string_of_bytes, length_replicate in H.
    change (Go.len "") with 0 in H. lia.
  - intros ->. rewrite Nat.sub_diag. f_equal.
    unfold nuls. cbn [replicate Go.string_of_bytes string_of_list_ascii].
    generalize (slice_to (shortest values) (Go.len (shortest values))).
    intros s. induction s as [|c s IH]; [reflexivity|].
    change (String c (s ++ "")%string = String c s). now rewrite IH.
Qed.

End PrefixFacts.

(** ** [commonPrefix] and the longest common prefix *)

Section PrefixMore.
Import Prefix.

Lemma prefix_cons (c d : ascii) (s t : string) :
  String.prefix (String c s) (String d t) = Ascii.eqb c d && String.prefix s t.
Proof.
  cbn [String.prefix]. destruct (ascii_dec c d) as [->|Hne].
  - now rewrite Ascii.eqb_refl.
  - apply Ascii.eqb_neq in Hne. now rewrite Hne.
Qed.

Lemma prefix_nil_l (t : string) : String.prefix "" t = true.
Proof. now destruct t. Qed.

Lemma prefix_nil_r (s : string) : String.prefix s "" = true → s = ""%string.
Proof. destruct s; [reflexivity | discriminate]. Qed.

(** The first [k] bytes of [m] begin [v] when the two agree that far. *)
Lemma prefix_slice_agree (m v : string) (k : nat) :
  k ≤ agree m v → String.prefix (slice_to m k) v = true.
Proof.
  unfold slice_to. revert v k.
  induction m as [|x m IH]; intros v k Hk.
  - destruct k; apply prefix_nil_l.
  - destruct k as [|k]; [apply prefix_nil_l|].
    destruct v as [|y v]; cbn [agree] in Hk; [lia|].
    destruct (Ascii.eqb x y) eqn:Hxy; [|lia].
    cbn [String.substring]. rewrite prefix_cons, Hxy. cbn [andb].
    apply IH. lia.
Qed.

(** A string that begins both [a] and [b] is no longer than their
    agreement. *)
Lemma prefix_agree (s a b : string) :
  String.prefix s a = true → String.prefix s b = true → Go.len s ≤ agree a b.
Proof.
  unfold Go.len. revert a b.
  induction s as [|c s IH]; intros a b Ha Hb; [cbn; lia|].
  destruct a as [|x a]; [discriminate|]. destruct b as [|y b]; [discriminate|].
  rewrite prefix_cons in Ha, Hb.
  apply andb_prop in Ha as [Hcx Ha]. apply andb_prop in Hb as [Hcy Hb].
  apply Ascii.eqb_eq in Hcx, Hcy. subst x y.
  cbn [agree String.length]. rewrite Ascii.eqb_refl.
  specialize (IH a b Ha Hb). lia.
Qed.

Lemma prefix_substring (s m : string) (k : nat) :
  String.prefix s m = true → Go.len s ≤ k → String.prefix s (slice_to m k) = true.
Proof.
  unfold Go.len, slice_to. revert m k.
  induction s as [|c s IH]; intros m k Hm Hk; [apply prefix_nil_l|].
  destruct m as [|x m]; [discriminate|].
  destruct k as [|k]; [cbn in Hk; lia|].
  rewrite prefix_cons in Hm. apply andb_prop in Hm as [Hcx Hm].
  cbn [String.substring]. rewrite prefix_cons, Hcx. cbn [andb].
  apply IH; [exact Hm | cbn in Hk; lia].
Qed.

Lemma prefix_append (s t : string) : String.prefix s (s ++ t) = true.
Proof.
  induction s as [|c s IH]; [apply prefix_nil_l|].
  change (String.prefix (String c s) (String c (s ++ t)) = true).
  now rewrite prefix_cons, Ascii.eqb_refl.
Qed.

(** [m] begins [v] exactly when the two agree on the whole of [m]. *)
Lemma prefix_iff_agree (m v : string) :
  String.prefix m v = true ↔ agree m v = Go.len m.
Proof.
  unfold Go.len. revert v. induction m as [|x m IH]; intros v.
  - split; [reflexivity | intros _; apply prefix_nil_l].
  - destruct v as [|y v]; [split; discriminate|].
    rewrite prefix_cons. cbn [agree String.length].
    destruct (Ascii.eqb x y); cbn [andb]; [|split; discriminate].
    rewrite IH. split; [congruence | now intros [= ->]].
Qed.

Lemma first_mismatch_full (m : string) (values : list string) :
  first_mismatch m values = Go.len m ↔ ∀ v, v ∈ values → String.prefix m v = true.
Proof.
  split.
  - intros Hk v Hv. apply prefix_iff_agree.
    pose proof (first_mismatch_le m values v Hv). pose proof (agree_le_l m v). lia.
  - intros Hall. apply Nat.le_antisymm; [apply first_mismatch_le_len|].
    apply first_mismatch_ge; [lia|].
    intros v Hv. apply Hall, prefix_iff_agree in Hv. lia.
Qed.

Lemma shortest_from_in (cur : string) (rest : list string) :
  shortest_from cur rest ∈ cur :: rest.
Proof.
  revert cur. induction rest as [|s rest IH]; intros cur; cbn [shortest_from]; [now left|].
  destruct (Go.len s <? Go.len cur).
  - right. apply IH.
  - specialize (IH cur). apply elem_of_cons in IH as [->|IH]; [now left|].
    right. now right.
Qed.

Lemma shortest_in (values : list string) : values ≠ [] → shortest values ∈ values.
Proof.
  destruct values as [|v0 rest]; [congruence|]. intros _. apply shortest_from_in.
Qed.

(** [common_prefix_spec] is the longest common prefix of the arguments. *)
Lemma common_prefix_spec_common (values : list string) (v : string) :
  v ∈ values → String.prefix (common_prefix_spec values) v = true.
Proof.
  intros Hv. apply prefix_slice_agree. now apply first_mismatch_le.
Qed.

Lemma common_prefix_spec_longest (values : list string) (s : string) :
  values ≠ [] →
  (∀ v, v ∈ values → String.prefix s v = true) →
  String.prefix s (common_prefix_spec values) = true.
Proof.
  intros Hne Hall. pose proof (shortest_in values Hne) as Hm.
  apply prefix_substring; [now apply Hall|].
  apply first_mismatch_ge.
  - pose proof (prefix_agree s _ _ (Hall _ Hm) (Hall _ Hm)) as H.
    rewrite agree_refl in H. exact H.
  - intros v Hv. apply prefix_agree; auto.
Qed.

Lemma shortest_all_equal (s : string) (values : list string) :
  values ≠ [] → (∀ v, v ∈ values → v = s) → shortest values = s.
Proof.
  intros Hne Hall. apply Hall. now apply shortest_in.
Qed.

End PrefixMore.

(** ** Correctness of the byte formatter *)

Section BytesFacts.
Import Bytes.

Lemma maxLen_value : maxLen = 5.
Proof. reflexivity. Qed.

Lemma suffixes_lookup (i : nat) : i ≤ 5 → suffixes !! i = Some (spec_unit i).
Proof.
  intros Hi. do 6 (destruct i as [|i]; [reflexivity|]). lia.
Qed.

(** Once the specification's loop has been left, more steps change
    nothing. *)
Lemma spec_while_enough (k : nat) (bf : float64) (i n : nat) :
  i + k = 5 → k ≤ n → spec_while n bf i = spec_while k bf i.
Proof.
  revert bf i n. induction k as [|k IH]; intros bf i n Hi Hn.
  - assert (i = 5) as -> by lia. destruct n; [reflexivity|].
    cbn [spec_while]. now rewrite andb_false_r.
  - destruct n as [|n]; [lia|]. cbn [spec_while].
    destruct (fge (fdiv bf BytesPerKB) one && (i <? 5)); [|reflexivity].
    apply IH; lia.
Qed.

Lemma spec_while_index (n : nat) (bf : float64) (i : nat) :
  i ≤ 5 → snd (spec_while n bf i) ≤ 5.
Proof.
  revert bf i. induction n as [|n IH]; intros bf i Hi; [exact Hi|].
  cbn [spec_while].
  destruct (fge (fdiv bf BytesPerKB) one) ; cbn [andb]; [|exact Hi].
  destruct (Nat.ltb_spec i 5); [|exact Hi].
  apply IH. lia.
Qed.

(** At the index of PB the loop of the code is left, whatever the value. *)
Lemma describe_loop_at_PB (fuel : nat) (bf : float64) :
  describe_loop (S fuel) bf 5 = Done (sprintf_2f bf ++ "PB")%string.
Proof.
  cbn [describe_loop]. rewrite maxLen_value.
  change (5 <=? 5) with true. now rewrite orb_true_r.
Qed.

(** The loop of the code computes what the loop of the specification
    does, with [5 - i + 1] iterations at most. *)
Lemma describe_loop_spec (k : nat) (bf : float64) (i fuel : nat) :
  i + k = 5 → is_nan bf = false → k < fuel →
  describe_loop fuel bf i
  = Done (let '(bf', i') := spec_while k bf i in (sprintf_2f bf' ++ spec_unit i')%string).
Proof.
  revert bf i fuel. induction k as [|k IH]; intros bf i fuel Hi Hnan Hfuel.
  - assert (i = 5) as -> by lia.
    destruct fuel as [|fuel]; [lia|]. apply describe_loop_at_PB.
  - destruct fuel as [|fuel]; [lia|].
    cbn [describe_loop spec_while]. rewrite maxLen_value.
    pose proof (fdiv_BytesPerKB_not_nan bf Hnan) as Hdiv.
    rewrite (flt_not_fge _ _ Hdiv one_not_nan).
    destruct (Nat.leb_spec 5 i) as [|_]; [lia|].
    destruct (Nat.ltb_spec i 5) as [_|]; [|lia].
    rewrite orb_false_r, andb_true_r.
    destruct (fge (fdiv bf BytesPerKB) one); cbn [negb].
    + replace (i + 1) with (S i) by lia. apply IH; [lia | exact Hdiv | lia].
    + rewrite suffixes_lookup by lia. reflexivity.
Qed.

(** More fuel than [maxLen + 1] gives the same result: the loop has been
    left. *)
Lemma describe_loop_enough_fuel (b : Z) (fuel : nat) :
  maxLen < fuel → describe_loop fuel (float64_of_int b) 0 = describe b.
Proof.
  intros Hfuel. unfold describe.
  rewrite (describe_loop_spec 5 _ 0 fuel), (describe_loop_spec 5 _ 0 (S maxLen));
    auto using float64_of_int_not_nan.
Qed.

Lemma describe_spec (b : Z) : describe b = Done (spec_prettyBytes b).
Proof.
  unfold describe, spec_prettyBytes.
  now rewrite (describe_loop_spec 5) by (auto using float64_of_int_not_nan).
Qed.

(** *** The cache *)

Lemma byteDescription_hit (cache : gmap Z string) (b : Z) (s : string) :
  cache !! b = Some s → byteDescription cache b = Done (s, cache).
Proof. intros H. unfold byteDescription. now rewrite H. Qed.

Lemma byteDescription_miss (cache : gmap Z string) (b : Z) :
  cache !! b = None →
  byteDescription cache b = Done (spec_prettyBytes b, <[b := spec_prettyBytes b]> cache).
Proof. intros H. unfold byteDescription. now rewrite H, describe_spec. Qed.

Lemma cache_step_ok (cache : gmap Z string) (b : Z) :
  cache_ok cache → cache_ok (cache_step cache b).
Proof.
  intros Hok. unfold cache_step.
  destruct (cache !! b) as [s|] eqn:Hb.
  - now rewrite (byteDescription_hit _ _ _ Hb).
  - rewrite (byteDescription_miss _ _ Hb).
    intros k v. rewrite lookup_insert. case_decide as Hk.
    + intros [= <-]. subst k. apply describe_spec.
    + apply Hok.
Qed.

Lemma fold_cache_ok (history : list Z) (cache : gmap Z string) :
  cache_ok cache → cache_ok (fold_left cache_step history cache).
Proof.
  revert cache. induction history as [|b history IH]; intros cache Hok; [exact Hok|].
  cbn [fold_left]. apply IH. now apply cache_step_ok.
Qed.

Lemma prettyBytes_cache_ok (history : list Z) : cache_ok (prettyBytes_cache history).
Proof.
  apply fold_cache_ok. intros k v. unfold memoizeBytes. now rewrite lookup_empty.
Qed.

Lemma prettyBytes_spec (history : list Z) (b : Z) :
  prettyBytes history b = Done (spec_prettyBytes b).
Proof.
  unfold prettyBytes.
  destruct (prettyBytes_cache history !! b) as [s|] eqn:Hb.
  - rewrite (byteDescription_hit _ _ _ Hb).
    pose proof (prettyBytes_cache_ok history b s Hb) as Hs.
    rewrite describe_spec in Hs. congruence.
  - now rewrite (byteDescription_miss _ _ Hb).
Qed.

End BytesFacts.

(** ** Small counts, negative counts and the content of the cache *)

Section BytesMore.
Import Bytes.

Lemma app_string_assoc (a b c : string) : ((a ++ b) ++ c)%string = (a ++ (b ++ c))%string.
Proof.
  induction a as [|x a IH]; [reflexivity|].
  change (String x ((a ++ b) ++ c)%string = String x (a ++ (b ++ c))%string).
  now rewrite IH.
Qed.

(** Below 1024 the count is printed as it is. *)
Lemma spec_prettyBytes_small (b : Z) :
  (0 ≤ b < 1024)%Z →
  spec_prettyBytes b = (Go.decimal (Z.to_N b) ++ ".00B")%string.
Proof.
  intros Hb. destruct b as [|p|p]; [reflexivity | | lia].
  assert (HL : (0 ≤ Z.log2 (Z.pos p) < 10)%Z).
  { split; [apply Z.log2_nonneg|]. apply Z.log2_lt_pow2; [lia|]. change (2 ^ 10)%Z with 1024%Z. lia. }
  pose proof (digits2_pos_log2 p) as Hd.
  destruct (binary_round_exact false p ltac:(lia)) as (m & Hr & Hn & Hm).
  unfold spec_prettyBytes.
  change (float64_of_int (Z.pos p)) with (binary_round prec emax false p 0).
  rewrite Hr. rewrite (spec_while_normal 5 m _ 0 Hn) by lia.
  rewrite Hd.
  replace (Z.log2 (Z.pos p) + 1 - 53 + 52)%Z with (Z.log2 (Z.pos p)) by lia.
  rewrite (Z.div_small (Z.log2 (Z.pos p)) 10) by lia.
  change (Z.min 0 (5 - Z.of_nat 0)) with 0%Z. cbn [Z.to_nat Nat.add spec_unit].
  rewrite (sprintf_2f_exact false m p).
  - cbn [Z.to_N]. change ("" ++ ?x)%string with x. now rewrite app_string_assoc.
  - lia.
  - rewrite Hm, Hd. f_equal. f_equal. lia.
Qed.

(** A negative count of less than 53 bits is printed as it is. *)
Lemma spec_prettyBytes_negative (b : Z) :
  (- 2 ^ 53 < b < 0)%Z →
  spec_prettyBytes b = ("-" ++ Go.decimal (Z.to_N (- b)) ++ ".00B")%string.
Proof.
  intros Hb. rewrite spec_prettyBytes_nonpositive by lia.
  destruct b as [|p|p]; try lia.
  change (float64_of_int (Z.neg p)) with (binary_round prec emax true p 0).
  rewrite sprintf_2f_of_int by lia.
  cbn [Z.opp Z.to_N]. now rewrite !app_string_assoc.
Qed.

(** The cache after one more call. *)
Lemma cache_step_lookup (cache : gmap Z string) (b k : Z) :
  cache_ok cache →
  cache_step cache b !! k
  = if decide (k = b) then Some (spec_prettyBytes b) else cache !! k.
Proof.
  intros Hok. unfold cache_step.
  destruct (cache !! b) as [s|] eqn:Hb.
  - rewrite (byteDescription_hit _ _ _ Hb).
    case_decide as Hk; [|reflexivity]. subst k. rewrite Hb.
    pose proof (Hok b s Hb) as Hs. rewrite describe_spec in Hs. congruence.
  - rewrite (byteDescription_miss _ _ Hb), lookup_insert.
    repeat case_decide; congruence.
Qed.

Lemma fold_cache_lookup (history : list Z) (cache : gmap Z string) (k : Z) :
  cache_ok cache →
  fold_left cache_step history cache !! k
  = if decide (k ∈ history) then Some (spec_prettyBytes k) else cache !! k.
Proof.
  revert cache. induction history as [|b history IH]; intros cache Hok.
  - cbn [fold_left]. case_decide as Hin; [inversion Hin | reflexivity].
  - cbn [fold_left]. rewrite IH by now apply cache_step_ok.
    rewrite cache_step_lookup by exact Hok.
    destruct (decide (k ∈ history)) as [Hin|Hnin].
    + rewrite decide_True by now right. reflexivity.
    + destruct (decide (k = b)) as [->|Hne].
      * rewrite decide_True by now left. reflexivity.
      * rewrite decide_False; [reflexivity|].
        intros [?|?]%elem_of_cons; contradiction.
Qed.

(** The cache of the instance holds the description of each input seen,
    and nothing else. *)
Lemma prettyBytes_cache_lookup (history : list Z) (k : Z) :
  prettyBytes_cache history !! k
  = if decide (k ∈ history) then Some (spec_prettyBytes k) else None.
Proof.
  unfold prettyBytes_cache. rewrite fold_cache_lookup.
  - unfold memoizeBytes. now rewrite lookup_empty.
  - intros j v. unfold memoizeBytes. now rewrite lookup_empty.
Qed.

End BytesMore.

(** ** Correctness of [remotePathSplit] *)

Section PathFacts.
Import PathSplit.

Lemma prefix_slash (c : ascii) (s : string) :
  String.prefix "/" (String c s) = Ascii.eqb c "/".
Proof.
  cbn [String.prefix]. destruct (ascii_dec "/" c) as [<-|Hne].
  - now destruct s.
  - symmetry. apply Ascii.eqb_neq. congruence.
Qed.

Lemma split_go_not_nil (sep s : string) (skip : nat) : Go.split_go sep s skip ≠ [].
Proof.
  revert skip. induction s as [|c s IH]; intros skip; cbn [Go.split_go]; [discriminate|].
  destruct skip as [|k]; [|apply IH].
  destruct (String.prefix sep (String c s)); [discriminate|].
  destruct (Go.split_go sep s 0); discriminate.
Qed.

Lemma Split_slash (p : string) : Go.Split p "/" = Go.split_go "/" p 0.
Proof. reflexivity. Qed.

Lemma Join_cons (e : string) (rest : list string) (sep : string) :
  rest ≠ [] → Go.Join (e :: rest) sep = (e ++ sep ++ Go.Join rest sep)%string.
Proof. destruct rest; [congruence | reflexivity]. Qed.

Lemma Join_cons_byte (c : ascii) (comp : string) (comps : list string) (sep : string) :
  Go.Join (String c comp :: comps) sep = String c (Go.Join (comp :: comps) sep).
Proof. destruct comps; reflexivity. Qed.

(** Joining the components gives the path back. *)
Lemma Join_split_go (s : string) : Go.Join (Go.split_go "/" s 0) "/" = s.
Proof.
  induction s as [|c s IH]; [reflexivity|].
  cbn [Go.split_go]. rewrite prefix_slash.
  destruct (Ascii.eqb_spec c "/") as [->|Hne].
  - change (Go.len "/" - 1) with 0.
    rewrite Join_cons by apply split_go_not_nil. now rewrite IH.
  - pose proof (split_go_not_nil "/" s 0) as Hnil.
    destruct (Go.split_go "/" s 0) as [|comp comps]; [congruence|].
    now rewrite Join_cons_byte, IH.
Qed.

(** No component holds a separator. *)
Lemma split_go_no_slash (s comp : string) :
  comp ∈ Go.split_go "/" s 0 → Go.in_cutset "/" comp = false.
Proof.
  revert comp. induction s as [|c s IH]; intros comp; cbn [Go.split_go].
  - intros ->%list_elem_of_singleton. reflexivity.
  - rewrite prefix_slash. destruct (Ascii.eqb_spec c "/") as [->|Hne].
    + change (Go.len "/" - 1) with 0.
      intros [->|Hin]%elem_of_cons; [reflexivity | now apply IH].
    + pose proof (split_go_not_nil "/" s 0) as Hnil.
      destruct (Go.split_go "/" s 0) as [|comp0 comps]; [congruence|].
      intros [->|Hin]%elem_of_cons.
      * cbn [Go.in_cutset]. rewrite (IH comp0) by now left.
        rewrite orb_false_r. apply Ascii.eqb_neq. congruence.
      * apply IH. now right.
Qed.

Lemma slice_init {A : Type} (l : list A) (x : A) :
  slice (l ++ [x]) 0 (Z.of_nat (length (l ++ [x])) - 1) = Some l.
Proof.
  unfold slice. rewrite length_app. cbn [length].
  replace (Z.of_nat (length l + 1) - 1)%Z with (Z.of_nat (length l)) by lia.
  destruct (Z.leb_spec 0 0); [|lia].
  destruct (Z.leb_spec 0 (Z.of_nat (length l))); [|lia].
  destruct (Z.leb_spec (Z.of_nat (length l)) (Z.of_nat (length l + 1))); [|lia].
  cbn [andb]. rewrite Nat2Z.id. change (Z.to_nat 0) with 0.
  rewrite Nat.sub_0_r, drop_0. now rewrite take_app_length.
Qed.

Lemma slice_last {A : Type} (l : list A) (x : A) :
  slice (l ++ [x]) (Z.of_nat (length (l ++ [x])) - 1) (Z.of_nat (length (l ++ [x])))
  = Some [x].
Proof.
  unfold slice. rewrite length_app. cbn [length].
  replace (Z.of_nat (length l + 1) - 1)%Z with (Z.of_nat (length l)) by lia.
  destruct (Z.leb_spec 0 (Z.of_nat (length l))); [|lia].
  destruct (Z.leb_spec (Z.of_nat (length l)) (Z.of_nat (length l + 1))); [|lia].
  destruct (Z.leb_spec (Z.of_nat (length l + 1)) (Z.of_nat (length l + 1))); [|lia].
  cbn [andb]. rewrite !Nat2Z.id.
  replace (length l + 1 - length l) with 1 by lia.
  now rewrite drop_app_length.
Qed.

(** The function never panics: the last component is the base, the
    components before it, joined again, are the directory. *)
Lemma remotePathSplit_components (p : string) (comps : list string) (base : string) :
  Go.Split p "/" = (comps ++ [base])%list →
  remotePathSplit p = Some (Go.Join comps "/", base).
Proof.
  intros Hsp. unfold remotePathSplit. rewrite Hsp.
  rewrite slice_init. cbn [mbind option_bind].
  rewrite slice_last. reflexivity.
Qed.

Lemma Split_snoc (p : string) :
  ∃ comps base, Go.Split p "/" = (comps ++ [base])%list.
Proof.
  rewrite Split_slash.
  pose proof (split_go_not_nil "/" p 0) as Hnil.
  destruct (exists_last Hnil) as (comps & base & ->). eauto.
Qed.

End PathFacts.

(** ** Splitting what was joined *)

Section PathMore.
Import PathSplit.

Lemma string_app_assoc (a b c : string) : ((a ++ b) ++ c)%string = (a ++ (b ++ c))%string.
Proof.
  induction a as [|x a IH]; [reflexivity|].
  change (String x ((a ++ b) ++ c)%string = String x (a ++ (b ++ c))%string).
  now rewrite IH.
Qed.

(** A text without separator is one component. *)
Lemma split_go_free (s : string) :
  Go.in_cutset "/" s = false → Go.split_go "/" s 0 = [s].
Proof.
  induction s as [|c s IH]; [reflexivity|].
  cbn [Go.in_cutset]. intros [Hc Hs]%orb_false_elim.
  cbn [Go.split_go]. rewrite prefix_slash.
  rewrite Ascii.eqb_sym in Hc. rewrite Hc, (IH Hs). reflexivity.
Qed.

(** Splitting distributes over a separator. *)
Lemma split_go_app (a b : string) :
  Go.split_go "/" (a ++ String "/" b) 0
  = (Go.split_go "/" a 0 ++ Go.split_go "/" b 0)%list.
Proof.
  induction a as [|x a IH].
  - change (("" ++ String "/" b)%string) with (String "/" b).
    cbn [Go.split_go]. rewrite prefix_slash, Ascii.eqb_refl. reflexivity.
  - change ((String x a ++ String "/" b)%string) with (String x (a ++ String "/" b)).
    cbn [Go.split_go]. rewrite !prefix_slash.
    destruct (Ascii.eqb x "/").
    + change (Go.len "/" - 1) with 0. now rewrite IH.
    + rewrite IH. pose proof (split_go_not_nil "/" a 0) as Hnil.
      destruct (Go.split_go "/" a 0) as [|comp comps]; [congruence | reflexivity].
Qed.

Lemma Join_snoc (comps : list string) (base sep : string) :
  comps ≠ [] →
  Go.Join (comps ++ [base]) sep = (Go.Join comps sep ++ sep ++ base)%string.
Proof.
  induction comps as [|c comps IH]; [congruence|]. intros _.
  destruct comps as [|c' comps]; [reflexivity|].
  change ((c :: c' :: comps) ++ [base])%list with (c :: ((c' :: comps) ++ [base]))%list.
  rewrite Join_cons by (cbn; discriminate).
  rewrite IH by discriminate. rewrite (Join_cons c (c' :: comps)) by discriminate.
  now rewrite !string_app_assoc.
Qed.

(** Splitting the join of separator-free components gives them back. *)
Lemma Split_Join (comps : list string) :
  comps ≠ [] →
  (∀ c, c ∈ comps → Go.in_cutset "/" c = false) →
  Go.Split (Go.Join comps "/") "/" = comps.
Proof.
  rewrite Split_slash.
  induction comps as [|c comps IH]; [congruence|]. intros _ Hfree.
  destruct comps as [|c' comps].
  - apply split_go_free, Hfree. now left.
  - rewrite Join_cons by discriminate.
    change (c ++ "/" ++ Go.Join (c' :: comps) "/")%string
      with (c ++ String "/" (Go.Join (c' :: comps) "/"))%string.
    rewrite split_go_app, (split_go_free c) by (apply Hfree; now left).
    rewrite IH; [reflexivity | discriminate |].
    intros d Hd. apply Hfree. now right.
Qed.

(** The path made of a directory and a base name is split back into
    them. *)
Lemma remotePathSplit_join (dir base : string) :
  Go.in_cutset "/" base = false →
  remotePathSplit (dir ++ String "/" base) = Some (dir, base).
Proof.
  intros Hbase.
  rewrite (remotePathSplit_components _ (Go.split_go "/" dir 0) base).
  - now rewrite Join_split_go.
  - now rewrite Split_slash, split_go_app, (split_go_free base Hbase).
Qed.

Lemma in_cutset_append (c : ascii) (s t : string) :
  Go.in_cutset c (s ++ t) = Go.in_cutset c s || Go.in_cutset c t.
Proof.
  induction s as [|d s IH]; [reflexivity|].
  change (Go.in_cutset c (String d (s ++ t)) = Go.in_cutset c (String d s) || Go.in_cutset c t).
  cbn [Go.in_cutset]. now rewrite IH, orb_assoc.
Qed.

(** What the two results say about the path. *)
Lemma remotePathSplit_inverse (p : string) :
  ∃ dir base,
    remotePathSplit p = Some (dir, base)
    ∧ Go.in_cutset "/" base = false
    ∧ (if Go.in_cutset "/" p then p = (dir ++ String "/" base)%string
       else dir = ""%string ∧ base = p).
Proof.
  destruct (Split_snoc p) as (comps & base & Hsp).
  exists (Go.Join comps "/"), base.
  split; [now apply remotePathSplit_components|].
  assert (Hfree : ∀ c, c ∈ (comps ++ [base])%list → Go.in_cutset "/" c = false).
  { intros c Hc. rewrite <- Hsp, Split_slash in Hc. now apply (split_go_no_slash p). }
  assert (Hbase : Go.in_cutset "/" base = false).
  { apply Hfree. apply elem_of_app. right. now left. }
  split; [exact Hbase|].
  assert (Hp : Go.Join (comps ++ [base]) "/" = p)
    by (rewrite <- Hsp, Split_slash; apply Join_split_go).
  destruct comps as [|c comps].
  - cbn in Hp. subst p. rewrite Hbase. split; reflexivity.
  - rewrite Join_snoc in Hp by discriminate. subst p.
    rewrite in_cutset_append.
    change ("/" ++ base)%string with (String "/" base).
    cbn [Go.in_cutset]. rewrite Ascii.eqb_refl, orb_true_r. reflexivity.
Qed.

End PathMore.

(** ** Correctness of [readCommentedFile] *)

Section CommentedFacts.
Import Commented.

(** *** The loop keeps the trimmed tokens that pass the test, in order *)

Lemma scan_loop_spec (scanner : list string) (comment : string) (clauses : list string) :
  scan_loop scanner comment clauses
  = (clauses ++ filter (λ l, loop_keeps comment l = true) (map loop_trim scanner))%list.
Proof.
  revert clauses. induction scanner as [|text scanner IH]; intros clauses.
  - cbn. now rewrite app_nil_r.
  - cbn [scan_loop map]. fold (loop_trim text).
    destruct (Go.HasPrefix (loop_trim text) comment || (Go.len (loop_trim text) <? 1))
      eqn:Hskip.
    + rewrite IH, filter_cons_False; [reflexivity|].
      unfold loop_keeps. rewrite Hskip. discriminate.
    + rewrite IH, filter_cons_True, <- app_assoc; [reflexivity|].
      unfold loop_keeps. now rewrite Hskip.
Qed.

Lemma HasPrefix_empty (line : string) : Go.HasPrefix line "" = true.
Proof. unfold Go.HasPrefix. now destruct line. Qed.

Lemma len_lt_1 (line : string) : (Go.len line <? 1) = String.eqb line "".
Proof. now destruct line. Qed.

Lemma loop_keeps_kept (comment line : string) :
  loop_keeps comment line = kept comment line.
Proof.
  unfold loop_keeps, kept. now rewrite len_lt_1, orb_comm.
Qed.

(** *** Trimming *)

Lemma TrimLeft_free (c : ascii) (s cutset : string) :
  free_of c s → free_of c (Go.TrimLeft s cutset).
Proof.
  unfold free_of. induction s as [|d s IH]; intros Hs; [reflexivity|].
  cbn [Go.TrimLeft]. destruct (Go.in_cutset d cutset); [|exact Hs].
  apply IH. cbn [Go.in_cutset] in Hs. now apply orb_false_elim in Hs as [_ Hs].
Qed.

Lemma TrimRight_free (c : ascii) (s cutset : string) :
  free_of c s → free_of c (Go.TrimRight s cutset).
Proof.
  unfold free_of. induction s as [|d s IH]; intros Hs; [reflexivity|].
  cbn [Go.TrimRight]. cbn [Go.in_cutset] in Hs.
  apply orb_false_elim in Hs as [Hd Hs]. specialize (IH Hs).
  destruct (Go.TrimRight s cutset) as [|e t].
  - destruct (Go.in_cutset d cutset); [reflexivity|].
    cbn [Go.in_cutset]. now rewrite Hd.
  - cbn [Go.in_cutset] in *. now rewrite Hd.
Qed.

Lemma in_cutset_newline (d : ascii) :
  Go.in_cutset d newline = Ascii.eqb d Go.LF.
Proof. cbn [newline Go.in_cutset]. apply orb_false_r. Qed.

Lemma free_of_cons (c d : ascii) (s : string) :
  free_of c (String d s) → Ascii.eqb d c = false ∧ free_of c s.
Proof.
  unfold free_of. cbn [Go.in_cutset]. intros [H1 H2]%orb_false_elim.
  split; [|exact H2]. now rewrite Ascii.eqb_sym.
Qed.

Lemma TrimLeft_newline_id (s : string) :
  free_of Go.LF s → Go.TrimLeft s newline = s.
Proof.
  destruct s as [|d s]; [reflexivity|]. intros [Hd _]%free_of_cons.
  cbn [Go.TrimLeft]. now rewrite in_cutset_newline, Hd.
Qed.

Lemma TrimRight_newline_id (s : string) :
  free_of Go.LF s → Go.TrimRight s newline = s.
Proof.
  induction s as [|d s IH]; [reflexivity|]. intros [Hd Hs]%free_of_cons.
  cbn [Go.TrimRight]. rewrite (IH Hs), in_cutset_newline, Hd. now destruct s.
Qed.

(** On a text without ["\n"], trimming the newlines changes nothing. *)
Lemma loop_trim_spaces (text : string) :
  free_of Go.LF text → loop_trim text = trim_spaces text.
Proof.
  intros Hfree. unfold loop_trim, trim_spaces, Go.Trim at 1.
  assert (H : free_of Go.LF (Go.Trim text space))
    by now apply TrimLeft_free, TrimRight_free.
  now rewrite (TrimRight_newline_id _ H), (TrimLeft_newline_id _ H).
Qed.

(** *** The tokens of the scanner are the lines of the text *)

Lemma in_cutset_bytes (c : ascii) (s : string) :
  Go.in_cutset c s = true ↔ c ∈ list_ascii_of_string s.
Proof.
  induction s as [|d s IH]; cbn [Go.in_cutset list_ascii_of_string].
  - split; [discriminate | intros H; inversion H].
  - rewrite orb_true_iff, IH, elem_of_cons, Ascii.eqb_eq. reflexivity.
Qed.

Lemma free_of_bytes (c : ascii) (l : list ascii) :
  c ∉ l → free_of c (Go.string_of_bytes l).
Proof.
  intros Hl. unfold free_of. apply not_true_iff_false.
  rewrite in_cutset_bytes. unfold Go.string_of_bytes.
  now rewrite list_ascii_of_string_of_list_ascii.
Qed.

Lemma free_of_not_in (c : ascii) (s : string) :
  free_of c s → c ∉ list_ascii_of_string s.
Proof.
  unfold free_of. intros H Hin%in_cutset_bytes. congruence.
Qed.

Lemma dropCR_subset (c : ascii) (cur : list ascii) : c ∈ dropCR cur → c ∈ cur.
Proof.
  destruct cur as [|d cur]; [trivial|]. cbn [dropCR].
  destruct (Ascii.eqb d Go.CR); [now right | trivial].
Qed.

Lemma chomp_free (c : ascii) (l : string) : free_of c l → free_of c (chomp l).
Proof.
  intros Hl%free_of_not_in. apply free_of_bytes.
  intros Hin. apply Hl.
  apply (proj1 (elem_of_reverse _ _)) in Hin. apply dropCR_subset in Hin.
  now apply (proj1 (elem_of_reverse _ _)) in Hin.
Qed.

Lemma cut_line_free (s : string) : free_of Go.LF (fst (cut_line s)).
Proof.
  unfold free_of. induction s as [|c s IH]; [reflexivity|].
  cbn [cut_line]. destruct (Ascii.eqb c Go.LF) eqn:Hc; [reflexivity|].
  destruct (cut_line s) as [l r]. cbn [fst Go.in_cutset] in *.
  now rewrite Ascii.eqb_sym, Hc, IH.
Qed.

Lemma cut_line_len (s l r : string) :
  cut_line s = (l, Some r) → Go.len s = Go.len l + 1 + Go.len r.
Proof.
  unfold Go.len. revert l. induction s as [|c s IH]; intros l; cbn [cut_line].
  - discriminate.
  - destruct (Ascii.eqb c Go.LF).
    + intros [= <- <-]. reflexivity.
    + destruct (cut_line s) as [l' r']. intros [= <- ->].
      cbn [String.length]. rewrite (IH l' eq_refl). lia.
Qed.

(** One step of the scanner, in terms of [cut_line]. *)
Lemma scan_lines_cut (rest : string) (cur : list ascii) :
  scan_lines rest cur =
  let full := (reverse cur ++ list_ascii_of_string (fst (cut_line rest)))%list in
  match snd (cut_line rest) with
  | Some rest' =>
      if length full <? MaxScanTokenSize
      then token (reverse full) :: scan_lines rest' []
      else []
  | None =>
      match full with
      | [] => []
      | _ => if length full <? MaxScanTokenSize then [token (reverse full)] else []
      end
  end.
Proof.
  revert cur. induction rest as [|c rest IH]; intros cur.
  - cbn [scan_lines cut_line fst snd list_ascii_of_string]. cbv zeta.
    rewrite app_nil_r, reverse_involutive, length_reverse.
    destruct cur as [|d cur]; [reflexivity|].
    destruct (reverse (d :: cur)) eqn:Hrev; [|reflexivity].
    apply (f_equal (@length ascii)) in Hrev. rewrite length_reverse in Hrev. discriminate.
  - cbn [scan_lines cut_line]. destruct (Ascii.eqb c Go.LF).
    + cbn [fst snd list_ascii_of_string]. cbv zeta.
      now rewrite app_nil_r, reverse_involutive, length_reverse.
    + rewrite IH. destruct (cut_line rest) as [l r].
      cbn [fst snd list_ascii_of_string]. cbv zeta.
      now rewrite reverse_cons, <- app_assoc.
Qed.

Lemma token_chomp (l : string) : token (reverse (list_ascii_of_string l)) = chomp l.
Proof. reflexivity. Qed.

Lemma scan_lines_lines_upto (n : nat) (s : string) :
  Go.len s < n →
  forallb (λ l, Go.len l <? MaxScanTokenSize) (lines_upto n s) = true →
  scan_lines s [] = map chomp (lines_upto n s).
Proof.
  revert s. induction n as [|n IH]; intros s Hn Hfit; [lia|].
  rewrite scan_lines_cut. cbn [lines_upto] in *. cbv zeta.
  rewrite reverse_nil, app_nil_l, token_chomp, <- len_bytes.
  destruct (cut_line s) as [l [r|]] eqn:Hcut; cbn [fst snd].
  - cbn [forallb] in Hfit. apply andb_prop in Hfit as [Hl Hrest].
    rewrite Hl. cbn [map]. f_equal.
    apply IH; [|exact Hrest].
    pose proof (cut_line_len s l r Hcut). lia.
  - destruct l as [|c l]; [reflexivity|].
    cbn [forallb] in Hfit. apply andb_prop in Hfit as [Hl _].
    cbn [list_ascii_of_string]. now rewrite Hl.
Qed.

Lemma lines_upto_free (n : nat) (s l : string) :
  l ∈ lines_upto n s → free_of Go.LF l.
Proof.
  revert s. induction n as [|n IH]; intros s; cbn [lines_upto]; [intros H; inversion H|].
  pose proof (cut_line_free s) as Hfree.
  destruct (cut_line s) as [l0 [r|]]; cbn [fst] in Hfree.
  - intros [->|Hin]%elem_of_cons; [exact Hfree | now apply (IH r)].
  - destruct (String.eqb l0 ""); [intros H; inversion H|].
    intros ->%list_elem_of_singleton. exact Hfree.
Qed.

(** What the function reads from a text whose lines fit in the scanner. *)
Lemma scan_loop_lines (text comment : string) :
  fits_scanner text = true →
  scan_loop (scan_lines text []) comment [] = spec_clauses text comment.
Proof.
  intros Hfit. unfold fits_scanner, lines in Hfit.
  rewrite scan_loop_spec, app_nil_l, (scan_lines_lines_upto (S (Go.len text))) by (lia || auto).
  unfold spec_clauses, lines. rewrite map_map.
  rewrite (map_ext_in _ (λ l, trim_spaces (chomp l))).
  - apply list_filter_iff. intros l. now rewrite loop_keeps_kept.
  - intros l Hl%list_elem_of_In%lines_upto_free.
    now apply loop_trim_spaces, chomp_free.
Qed.

End CommentedFacts.

(** ** What [readCommentedFile] returns on any file *)

Section CommentedMore.
Import Commented Misc.

Lemma token_free (cur : list ascii) : Go.LF ∉ cur → free_of Go.LF (token cur).
Proof.
  intros Hcur. apply free_of_bytes. intros Hin. apply Hcur.
  apply (proj1 (elem_of_reverse _ _)) in Hin. now apply dropCR_subset.
Qed.

(** No token of the scanner holds a newline. *)
Lemma scan_lines_free (rest : string) (cur : list ascii) (t : string) :
  Go.LF ∉ cur → t ∈ scan_lines rest cur → free_of Go.LF t.
Proof.
  revert cur. induction rest as [|c rest IH]; intros cur Hcur; cbn [scan_lines].
  - destruct cur as [|d cur]; [intros H; inversion H|].
    destruct (_ <? _); [|intros H; inversion H].
    intros ->%list_elem_of_singleton. now apply token_free.
  - destruct (Ascii.eqb_spec c Go.LF) as [->|Hne].
    + destruct (_ <? _); [|intros H; inversion H].
      intros [->|Hin]%elem_of_cons; [now apply token_free|].
      apply (IH []); [|exact Hin]. intros H; inversion H.
    + apply IH. intros [Heq|Hin]%elem_of_cons; [congruence | contradiction].
Qed.

(** *** The ends of a trimmed string *)

Lemma last_byte_cons (c : ascii) (t : string) :
  t ≠ ""%string → last_byte (String c t) = last_byte t.
Proof.
  unfold last_byte, Go.index, Go.len. destruct t as [|d t]; [congruence|]. intros _.
  cbn [String.length]. rewrite !Nat.sub_succ, !Nat.sub_0_r. reflexivity.
Qed.

Lemma TrimLeft_first (s cutset : string) (c : ascii) :
  first_byte (Go.TrimLeft s cutset) = Some c → Go.in_cutset c cutset = false.
Proof.
  unfold first_byte, Go.index. induction s as [|d s IH]; [discriminate|].
  cbn [Go.TrimLeft]. destruct (Go.in_cutset d cutset) eqn:Hd; [exact IH|].
  cbn [String.get]. now intros [= <-].
Qed.

Lemma TrimRight_last (s cutset : string) (c : ascii) :
  last_byte (Go.TrimRight s cutset) = Some c → Go.in_cutset c cutset = false.
Proof.
  induction s as [|d s IH]; [discriminate|].
  cbn [Go.TrimRight]. destruct (Go.TrimRight s cutset) as [|e t] eqn:Ht.
  - destruct (Go.in_cutset d cutset) eqn:Hd; [discriminate|].
    unfold last_byte, Go.index, Go.len. cbn. now intros [= <-].
  - rewrite last_byte_cons by discriminate. exact IH.
Qed.

(** Trimming at the left keeps the last byte of what it leaves. *)
Lemma TrimLeft_last (s cutset : string) :
  Go.TrimLeft s cutset = ""%string ∨ last_byte (Go.TrimLeft s cutset) = last_byte s.
Proof.
  induction s as [|d s IH]; [now left|].
  cbn [Go.TrimLeft]. destruct (Go.in_cutset d cutset); [|now right].
  destruct IH as [IH|IH]; [now left|].
  destruct s as [|e s]; [now left|].
  right. rewrite IH. symmetry. now apply last_byte_cons.
Qed.

Lemma Trim_ends (s cutset : string) (c : ascii) :
  first_byte (Go.Trim s cutset) = Some c ∨ last_byte (Go.Trim s cutset) = Some c →
  Go.in_cutset c cutset = false.
Proof.
  unfold Go.Trim. intros [Hf|Hl].
  - now apply (TrimLeft_first (Go.TrimRight s cutset)).
  - destruct (TrimLeft_last (Go.TrimRight s cutset) cutset) as [He|He].
    + rewrite He in Hl. discriminate.
    + rewrite He in Hl. now apply (TrimRight_last s).
Qed.

(** What holds of every clause that the loop adds. *)
Lemma scan_loop_clause (scanner : list string) (comment c : string) :
  (∀ t, t ∈ scanner → free_of Go.LF t) →
  c ∈ scan_loop scanner comment [] →
  c ≠ ""%string ∧ Go.HasPrefix c comment = false
  ∧ first_byte c ≠ Some " "%char ∧ last_byte c ≠ Some " "%char
  ∧ free_of Go.LF c.
Proof.
  intros Hfree. rewrite scan_loop_spec, app_nil_l.
  intros [Hkeep Hin]%list_elem_of_filter.
  apply list_elem_of_In, in_map_iff in Hin as (t & <- & Ht%list_elem_of_In).
  specialize (Hfree t Ht).
  rewrite loop_keeps_kept in Hkeep. unfold kept in Hkeep.
  apply negb_true_iff, orb_false_elim in Hkeep as [Hempty Hprefix].
  apply String.eqb_neq in Hempty.
  rewrite (loop_trim_spaces t Hfree) in *. unfold trim_spaces in *.
  split; [exact Hempty|]. split; [exact Hprefix|].
  split; [|split].
  - intros H. assert (Hs : Go.in_cutset " " space = false)
      by (apply (Trim_ends t space); now left).
    discriminate.
  - intros H. assert (Hs : Go.in_cutset " " space = false)
      by (apply (Trim_ends t space); now right).
    discriminate.
  - now apply TrimLeft_free, TrimRight_free.
Qed.

(** *** The clauses of an initial part of the text *)

(** The scanner delivers an initial part of the lines of the text. *)
Lemma scan_lines_initial (n : nat) (s : string) :
  Go.len s < n →
  ∃ lost, map chomp (lines_upto n s) = (scan_lines s [] ++ lost)%list.
Proof.
  revert s. induction n as [|n IH]; intros s Hn; [lia|].
  rewrite scan_lines_cut. cbn [lines_upto]. cbv zeta.
  rewrite reverse_nil, app_nil_l, token_chomp, <- len_bytes.
  destruct (cut_line s) as [l [r|]] eqn:Hcut; cbn [fst snd].
  - cbn [map]. destruct (Go.len l <? MaxScanTokenSize).
    + destruct (IH r) as [lost Hlost].
      { pose proof (cut_line_len s l r Hcut). lia. }
      exists lost. rewrite Hlost. reflexivity.
    + eexists. reflexivity.
  - destruct l as [|c l]; [exists []; reflexivity|].
    cbn [String.eqb list_ascii_of_string map].
    destruct (Go.len (String c l) <? MaxScanTokenSize).
    + exists []. reflexivity.
    + eexists. reflexivity.
Qed.

Lemma filter_clauses_app (comment : string) (l1 l2 : list string) :
  filter (λ l, kept comment l = true) (l1 ++ l2)%list
  = (filter (λ l, kept comment l = true) l1 ++ filter (λ l, kept comment l = true) l2)%list.
Proof. apply filter_app. Qed.

(** The clauses returned begin the clauses of the whole text. *)
Lemma scan_loop_initial (text comment : string) :
  ∃ lost, spec_clauses text comment
          = (scan_loop (scan_lines text []) comment [] ++ lost)%list.
Proof.
  destruct (scan_lines_initial (S (Go.len text)) text ltac:(lia)) as [lost Hlost].
  exists (filter (λ l, kept comment l = true) (map loop_trim lost)).
  rewrite scan_loop_spec, app_nil_l.
  rewrite (list_filter_iff _ (λ l, kept comment l = true))
    by (intros l; now rewrite loop_keeps_kept).
  rewrite <- filter_clauses_app, <- map_app, <- Hlost.
  unfold spec_clauses, lines. rewrite map_map. f_equal.
  apply map_ext_in. intros l Hl%list_elem_of_In%lines_upto_free.
  symmetry. now apply loop_trim_spaces, chomp_free.
Qed.

End CommentedMore.

(** ** Line ends: ["\r\n"] reads as ["\n"] *)

Section CommentedCRLF.
Import Commented Misc.

Lemma len_crlf (s : string) : Go.len s ≤ Go.len (crlf s).
Proof.
  unfold Go.len. induction s as [|c s IH]; [reflexivity|].
  cbn [crlf]. destruct (Ascii.eqb c Go.LF); cbn [String.length]; lia.
Qed.

Lemma cut_line_crlf (s : string) :
  cut_line (crlf s)
  = match cut_line s with
    | (l, Some r) => ((l ++ String Go.CR "")%string, Some (crlf r))
    | (l, None) => (l, None)
    end.
Proof.
  induction s as [|c s IH]; [reflexivity|].
  cbn [crlf cut_line]. destruct (Ascii.eqb c Go.LF) eqn:Hc.
  - cbn [cut_line]. change (Ascii.eqb Go.CR Go.LF) with false. cbv iota.
    cbn [cut_line]. change (Ascii.eqb Go.LF Go.LF) with true. cbv iota. reflexivity.
  - cbn [cut_line]. rewrite Hc, IH.
    destruct (cut_line s) as [l [r|]]; reflexivity.
Qed.

Lemma cut_line_free_of (c : ascii) (s : string) :
  free_of c s →
  free_of c (fst (cut_line s))
  ∧ ∀ r, snd (cut_line s) = Some r → free_of c r.
Proof.
  unfold free_of. induction s as [|d s IH]; [split; [reflexivity | discriminate]|].
  cbn [Go.in_cutset]. intros [Hd Hs]%orb_false_elim.
  cbn [cut_line]. destruct (Ascii.eqb d Go.LF).
  - cbn [fst snd]. split; [reflexivity|]. now intros r [= <-].
  - destruct (IH Hs) as [IH1 IH2]. destruct (cut_line s) as [l r].
    cbn [fst snd Go.in_cutset] in *. split; [now rewrite Hd, IH1 | exact IH2].
Qed.

Lemma bytes_append (s t : string) :
  list_ascii_of_string (s ++ t)
  = (list_ascii_of_string s ++ list_ascii_of_string t)%list.
Proof.
  induction s as [|c s IH]; [reflexivity|].
  change (list_ascii_of_string (String c (s ++ t))
          = (c :: list_ascii_of_string s ++ list_ascii_of_string t)%list).
  cbn [list_ascii_of_string]. now rewrite IH.
Qed.

Lemma string_of_bytes_of_string (s : string) :
  Go.string_of_bytes (list_ascii_of_string s) = s.
Proof. apply string_of_list_ascii_of_string. Qed.

(** [chomp] takes away the ["\r"] that ends a line. *)
Lemma chomp_CR (l : string) : chomp (l ++ String Go.CR "") = l.
Proof.
  unfold chomp. rewrite bytes_append. cbn [list_ascii_of_string].
  rewrite reverse_app, reverse_singleton. cbn [app dropCR].
  change (Ascii.eqb Go.CR Go.CR) with true. cbv iota.
  now rewrite reverse_involutive, string_of_bytes_of_string.
Qed.

(** [chomp] leaves a line without ["\r"] as it is. *)
Lemma chomp_free_id (l : string) : free_of Go.CR l → chomp l = l.
Proof.
  intros Hfree%free_of_not_in. unfold chomp.
  assert (Hdrop : dropCR (reverse (list_ascii_of_string l))
                  = reverse (list_ascii_of_string l)).
  { destruct (reverse (list_ascii_of_string l)) as [|c cur] eqn:Hrev; [reflexivity|].
    cbn [dropCR]. destruct (Ascii.eqb_spec c Go.CR) as [->|]; [|reflexivity].
    exfalso. apply Hfree. apply elem_of_reverse. rewrite Hrev. now left. }
  now rewrite Hdrop, reverse_involutive, string_of_bytes_of_string.
Qed.

Lemma len_snoc (l : string) (c : ascii) : Go.len (l ++ String c "") = S (Go.len l).
Proof. rewrite len_append. unfold Go.len. cbn. lia. Qed.

(** The lines of the text with ["\r\n"] are the lines of the text, each
    followed by ["\r"] when a line end follows it. *)
Lemma lines_upto_crlf (n n' : nat) (s : string) :
  Go.len s < n → Go.len (crlf s) < n' → free_of Go.CR s →
  map chomp (lines_upto n' (crlf s)) = map chomp (lines_upto n s)
  ∧ (forallb (λ l, Go.len l <? MaxScanTokenSize) (lines_upto n' (crlf s)) = true →
     forallb (λ l, Go.len l <? MaxScanTokenSize) (lines_upto n s) = true).
Proof.
  revert n' s. induction n as [|n IH]; intros n' s Hn Hn' Hfree; [lia|].
  destruct n' as [|n']; [lia|].
  cbn [lines_upto]. rewrite cut_line_crlf.
  destruct (cut_line_free_of Go.CR s Hfree) as [Hl Hr].
  destruct (cut_line s) as [l [r|]] eqn:Hcut; cbn [fst snd] in *.
  - assert (Hlen : Go.len s = Go.len l + 1 + Go.len r) by now apply cut_line_len.
    assert (Hlen' : Go.len (crlf s)
                    = Go.len (l ++ String Go.CR "") + 1 + Go.len (crlf r)).
    { apply cut_line_len. now rewrite cut_line_crlf, Hcut. }
    rewrite len_snoc in Hlen'.
    destruct (IH n' r) as [IH1 IH2]; [lia | lia | now apply Hr |].
    cbn [map forallb]. rewrite chomp_CR, (chomp_free_id l Hl), IH1.
    split; [reflexivity|].
    intros [H1 H2]%andb_prop. rewrite (IH2 H2), andb_true_r.
    rewrite len_snoc in H1. apply Nat.ltb_lt in H1. apply Nat.ltb_lt. lia.
  - split; [reflexivity | trivial].
Qed.

(** Reading the text with ["\r\n"] gives what reading the text gives. *)
Lemma scan_loop_crlf (text comment : string) :
  free_of Go.CR text →
  fits_scanner (crlf text) = true →
  scan_loop (scan_lines (crlf text) []) comment []
  = scan_loop (scan_lines text []) comment [].
Proof.
  intros Hfree Hfit.
  destruct (lines_upto_crlf (S (Go.len text)) (S (Go.len (crlf text))) text)
    as [Hlines Hfits]; [lia | lia | exact Hfree |].
  assert (Hfit' : fits_scanner text = true) by (apply Hfits, Hfit).
  rewrite !scan_loop_spec, !app_nil_l.
  rewrite (scan_lines_lines_upto (S (Go.len (crlf text)))) by (lia || exact Hfit).
  rewrite (scan_lines_lines_upto (S (Go.len text)) text) by (lia || exact Hfit').
  now rewrite Hlines.
Qed.

End CommentedCRLF.

(** ** Correctness of the desktop entry writer *)

Section DesktopFacts.
Import Desktop.

Variable LinkKey : string.
Variable PathSeparator : ascii.

Lemma string_app_nil_r (a : string) : (a ++ "")%string = a.
Proof.
  induction a as [|x a IH]; [reflexivity|].
  change (String x (a ++ "")%string = String x a). now rewrite IH.
Qed.

Lemma prefix_byte (sep c : ascii) (s : string) :
  String.prefix (String sep "") (String c s) = Ascii.eqb c sep.
Proof.
  cbn [String.prefix]. destruct (ascii_dec sep c) as [<-|Hne].
  - rewrite Ascii.eqb_refl. now destruct s.
  - symmetry. apply Ascii.eqb_neq. congruence.
Qed.

(** With a budget that never runs out, each separator becomes a joiner. *)
Lemma replace_go_byte (s : string) (n : Z) :
  (n < 0)%Z →
  Go.replace_go (UnescapedPathSep PathSeparator) MimeTypeJoiner s 0 n
  = spec_icon PathSeparator s.
Proof.
  revert n. induction s as [|c s IH]; intros n Hn; [reflexivity|].
  cbn [Go.replace_go spec_icon]. unfold UnescapedPathSep at 1.
  rewrite prefix_byte.
  destruct (Z.eqb_spec n 0) as [|_]; [lia|].
  destruct (Ascii.eqb c PathSeparator).
  - change (Go.len (UnescapedPathSep PathSeparator) - 1) with 0.
    now rewrite IH by lia.
  - now rewrite IH.
Qed.

Lemma Replace_icon (contentType : string) :
  Go.Replace contentType (UnescapedPathSep PathSeparator) MimeTypeJoiner (-1)
  = spec_icon PathSeparator contentType.
Proof. unfold Go.Replace. cbn [UnescapedPathSep String.eqb]. now apply replace_go_byte. Qed.

Lemma toDesktopEntry_spec (f : File) (u : urlMimeTypeExt) :
  toDesktopEntry f u
  = {| de_name := spec_name (Name f) (ext u); de_url := url u; de_icon := mimeType u |}.
Proof.
  unfold toDesktopEntry, spec_name, sepJoin. now destruct (String.eqb (ext u) "").
Qed.

Lemma entry_text_lines (displayName targetURL contentType extension : string) :
  entry_text (spec_icon PathSeparator contentType) (spec_name displayName extension)
             LinkKey targetURL
  = unlines (spec_lines LinkKey PathSeparator displayName targetURL contentType extension).
Proof.
  unfold entry_text, spec_lines. cbn [unlines].
  rewrite string_app_nil_r.
  change (("Icon=" ++ ?a) ++ ?b)%string with ("Icon=" ++ (a ++ b))%string.
  change (("Name=" ++ ?a) ++ ?b)%string with ("Name=" ++ (a ++ b))%string.
  change (("Type=" ++ ?a) ++ ?b)%string with ("Type=" ++ (a ++ b))%string.
  change (("URL=" ++ ?a) ++ ?b)%string with ("URL=" ++ (a ++ b))%string.
  reflexivity.
Qed.

(** What the call passes to [fmt.Fprintf]. *)
Lemma serializeAsDesktopEntry_unfold (os : OS) (f : File) (destPath : string)
                                     (u : urlMimeTypeExt) :
  create_error os destPath = None →
  serializeAsDesktopEntry LinkKey PathSeparator os f destPath u
  = Write (fst (Create os destPath)) destPath
      (unlines (spec_lines LinkKey PathSeparator (Name f) (url u) (mimeType u) (ext u))).
Proof.
  intros Hc. unfold serializeAsDesktopEntry, Create. rewrite Hc.
  rewrite toDesktopEntry_spec. cbn [de_icon de_name de_url fst snd].
  now rewrite Replace_icon, entry_text_lines.
Qed.

Lemma serializeAsDesktopEntry_refused (os : OS) (f : File) (destPath : string)
                                      (u : urlMimeTypeExt) (e : Go.error) :
  create_error os destPath = Some e →
  serializeAsDesktopEntry LinkKey PathSeparator os f destPath u = (os, (0%Z, Some e)).
Proof.
  intros Hc. unfold serializeAsDesktopEntry, Create. now rewrite Hc.
Qed.

(** A write that completes on a file just created leaves exactly the text
    in it. *)
Lemma Write_created (os : OS) (destPath text : string) :
  create_error os destPath = None →
  write_completes os text = true →
  ∃ os', Write (fst (Create os destPath)) destPath text
         = (os', (Z.of_nat (Go.len text), None))
         ∧ files os' !! destPath = Some text.
Proof.
  intros Hc Hw. unfold Create. rewrite Hc. cbn [fst].
  unfold Write, write_completes in *. cbn [write_fault files create_error].
  rewrite lookup_insert_eq. cbn [default].
  destruct (write_fault os) as [[k e]|].
  - apply Nat.leb_le in Hw.
    destruct (Nat.ltb_spec k (Go.len text)) as [|_]; [lia|].
    eexists. split; [reflexivity|]. cbn [files]. now rewrite lookup_insert_eq.
  - eexists. split; [reflexivity|]. cbn [files]. now rewrite lookup_insert_eq.
Qed.

End DesktopFacts.

(** ** The icon, and the files that are not written *)

Section DesktopMore.
Import Desktop.

Variable LinkKey : string.
Variable PathSeparator : ascii.

(** No separator is left in the icon, unless the separator is the joiner. *)
Lemma spec_icon_free (contentType : string) :
  PathSeparator ≠ "-"%char →
  Go.in_cutset PathSeparator (spec_icon PathSeparator contentType) = false.
Proof.
  intros Hsep. induction contentType as [|c rest IH]; [reflexivity|].
  cbn [spec_icon]. destruct (Ascii.eqb c PathSeparator) eqn:Hc.
  - change ("-" ++ spec_icon PathSeparator rest)%string
      with (String "-" (spec_icon PathSeparator rest)).
    cbn [Go.in_cutset]. rewrite IH, orb_false_r. now apply Ascii.eqb_neq.
  - cbn [Go.in_cutset]. rewrite IH, orb_false_r. now rewrite Ascii.eqb_sym.
Qed.

Lemma spec_icon_len (contentType : string) :
  Go.len (spec_icon PathSeparator contentType) = Go.len contentType.
Proof.
  unfold Go.len. induction contentType as [|c rest IH]; [reflexivity|].
  cbn [spec_icon]. destruct (Ascii.eqb c PathSeparator);
    [change ("-" ++ spec_icon PathSeparator rest)%string
       with (String "-" (spec_icon PathSeparator rest))|];
    cbn [String.length]; now rewrite IH.
Qed.

(** A content type without separator is its own icon. *)
Lemma spec_icon_id (contentType : string) :
  Go.in_cutset PathSeparator contentType = false →
  spec_icon PathSeparator contentType = contentType.
Proof.
  induction contentType as [|c rest IH]; [reflexivity|].
  cbn [Go.in_cutset]. intros [Hc Hrest]%orb_false_elim.
  cbn [spec_icon]. rewrite Ascii.eqb_sym in Hc. now rewrite Hc, IH.
Qed.


End DesktopMore.

(** ** The lines of the file that is written *)

Section DesktopLines.
Import Desktop.

Variable LinkKey : string.
Variable PathSeparator : ascii.

(** The first line of a text that starts with a line without ["\n"]. *)
Lemma cut_line_unline (l rest : string) :
  Commented.free_of Go.LF l →
  Commented.cut_line (l ++ String Go.LF rest) = (l, Some rest).
Proof.
  induction l as [|c l IH]; intros Hfree.
  - change ("" ++ String Go.LF rest)%string with (String Go.LF rest).
    cbn [Commented.cut_line]. now rewrite Ascii.eqb_refl.
  - apply free_of_cons in Hfree as [Hc Hl].
    change (String c l ++ String Go.LF rest)%string
      with (String c (l ++ String Go.LF rest)).
    cbn [Commented.cut_line]. now rewrite Hc, (IH Hl).
Qed.

Lemma len_unlines (ls : list string) : length ls ≤ Go.len (unlines ls).
Proof.
  induction ls as [|l ls IH]; [cbn; lia|].
  cbn [unlines length]. rewrite !len_append.
  change (Go.len nl) with 1. lia.
Qed.

(** A text made of lines without ["\n"] has these lines, and no other. *)
Lemma lines_upto_unlines (ls : list string) (n : nat) :
  (∀ l, l ∈ ls → Commented.free_of Go.LF l) →
  length ls < n →
  Commented.lines_upto n (unlines ls) = ls.
Proof.
  revert n. induction ls as [|l ls IH]; intros n Hfree Hn.
  - destruct n as [|n]; [cbn in Hn; lia | reflexivity].
  - destruct n as [|n]; [cbn in Hn; lia|].
    cbn [unlines Commented.lines_upto].
    change (l ++ nl ++ unlines ls)%string with (l ++ String Go.LF (unlines ls))%string.
    rewrite cut_line_unline by (apply Hfree; now left).
    f_equal. apply IH; [|cbn in Hn; lia].
    intros l' Hl'. apply Hfree. now right.
Qed.

Lemma lines_unlines (ls : list string) :
  (∀ l, l ∈ ls → Commented.free_of Go.LF l) →
  Commented.lines (unlines ls) = ls.
Proof.
  intros Hfree. unfold Commented.lines. apply lines_upto_unlines; [exact Hfree|].
  pose proof (len_unlines ls). lia.
Qed.

Lemma free_of_append (c : ascii) (s t : string) :
  Commented.free_of c s → Commented.free_of c t → Commented.free_of c (s ++ t).
Proof.
  unfold Commented.free_of. intros Hs Ht. now rewrite in_cutset_append, Hs, Ht.
Qed.

(** Replacing separators by joiners brings no newline in. *)
Lemma spec_icon_free_LF (contentType : string) :
  Commented.free_of Go.LF contentType →
  Commented.free_of Go.LF (spec_icon PathSeparator contentType).
Proof.
  induction contentType as [|c rest IH]; intros Hfree; [reflexivity|].
  apply free_of_cons in Hfree as [Hc Hrest]. specialize (IH Hrest).
  unfold Commented.free_of in *. cbn [spec_icon].
  destruct (Ascii.eqb c PathSeparator).
  - change ("-" ++ spec_icon PathSeparator rest)%string
      with (String "-" (spec_icon PathSeparator rest)).
    cbn [Go.in_cutset]. now rewrite IH.
  - cbn [Go.in_cutset]. now rewrite Ascii.eqb_sym, Hc, IH.
Qed.

Lemma spec_name_free_LF (displayName extension : string) :
  Commented.free_of Go.LF displayName → Commented.free_of Go.LF extension →
  Commented.free_of Go.LF (spec_name displayName extension).
Proof.
  intros Hn He. unfold spec_name. destruct (String.eqb extension ""); [exact Hn|].
  apply free_of_append; [exact Hn|]. now apply free_of_append.
Qed.

(** With fields that hold no newline, the five lines hold none. *)
Lemma spec_lines_free_LF (displayName targetURL contentType extension l : string) :
  Commented.free_of Go.LF displayName → Commented.free_of Go.LF targetURL →
  Commented.free_of Go.LF contentType → Commented.free_of Go.LF extension →
  Commented.free_of Go.LF LinkKey →
  l ∈ spec_lines LinkKey PathSeparator displayName targetURL contentType extension →
  Commented.free_of Go.LF l.
Proof.
  intros Hn Hu Hc He Hk Hl. unfold spec_lines in Hl.
  apply list_elem_of_In in Hl. cbn [In] in Hl.
  destruct Hl as [<-|[<-|[<-|[<-|[<-|[]]]]]].
  - reflexivity.
  - apply free_of_append; [reflexivity | now apply spec_icon_free_LF].
  - apply free_of_append; [reflexivity | now apply spec_name_free_LF].
  - now apply free_of_append.
  - now apply free_of_append.
Qed.

End DesktopLines.

(** * The statements about [misc.go] *)

(** ** [commonPrefix] *)

(** C1, at the arguments of its example: the substring of the shortest
    argument before the first mismatch is ["abc"], and [commonPrefix] returns
    ["abc"] followed by three NUL bytes, which is another string. *)
Theorem commonPrefix_example_is_padded :
  Prefix.common_prefix_spec ["abcdef"; "abcxyz"; "abc123"] = "abc"
  ∧ Prefix.commonPrefix ["abcdef"; "abcxyz"; "abc123"]
    = Some (String "a" (String "b" (String "c" (String zero (String zero (String zero ""))))))
  ∧ Prefix.commonPrefix ["abcdef"; "abcxyz"; "abc123"]
    ≠ Some (Prefix.common_prefix_spec ["abcdef"; "abcxyz"; "abc123"]).
Proof.
  split; [reflexivity|]. split; [reflexivity|].
  vm_compute. discriminate.
Qed.

(** C2: for at least one argument, [commonPrefix] returns a string as long
    as the shortest argument (the empty string when an argument of index 1
    or more is empty); up to the first position [k] where an argument
    differs from the shortest one it carries the bytes of the shortest
    argument, and from [k] to its end it carries NUL bytes. *)
Theorem commonPrefix_length_and_padding (v0 : string) (rest : list string) :
  let values := v0 :: rest in
  let m := Prefix.shortest values in
  let k := Prefix.first_mismatch m values in
  ∃ r, Prefix.commonPrefix values = Some r
       ∧ Go.len r = Go.len m
       ∧ (∀ v, v ∈ values → Go.len r ≤ Go.len v)
       ∧ (""%string ∈ rest → r = ""%string)
       ∧ (∀ v i, v ∈ values → i < k → Go.index v i = Go.index m i)
       ∧ (k < Go.len m → ∃ v, v ∈ values ∧ Go.index v k ≠ Go.index m k)
       ∧ (∀ i, i < k → Go.index r i = Go.index m i)
       ∧ (∀ i, k ≤ i → i < Go.len r → Go.index r i = Some zero).
Proof.
  intros values m k. exists (Prefix.padded_prefix values).
  assert (Hlen : Go.len (Prefix.padded_prefix values) = Go.len m)
    by apply len_padded_prefix.
  split; [apply commonPrefix_padded|].
  split; [exact Hlen|].
  split; [intros v Hv; rewrite Hlen; now apply shortest_le|].
  split.
  { intros Hin. apply padded_prefix_shortest_empty, shortest_empty. now right. }
  split; [intros v i Hv Hi; now apply (before_first_mismatch m values)|].
  split.
  { apply at_first_mismatch. intros v Hv. now apply shortest_le. }
  split; [intros i Hi; now apply index_padded_prefix_l|].
  intros i Hk Hi. rewrite Hlen in Hi. now apply index_padded_prefix_r.
Qed.

Lemma commonPrefix_length_and_padding_witness :
  ∃ r, Prefix.commonPrefix ["abcdef"; "abcxyz"; "abc123"] = Some r
       ∧ Go.len r = 6 ∧ Go.index r 2 = Some "c"%char ∧ Go.index r 3 = Some zero.
Proof.
  destruct (commonPrefix_length_and_padding "abcdef" ["abcxyz"; "abc123"])
    as (r & Hr & Hlen & _ & _ & _ & _ & Hl & Hz).
  exists r. split; [exact Hr|]. split; [exact Hlen|].
  split; [apply (Hl 2); vm_compute; lia|].
  apply (Hz 3); [vm_compute; lia | rewrite Hlen; vm_compute; lia].
Defined.

(** C8: without arguments [commonPrefix] returns the empty string, and so it
    does whenever one of its arguments is the empty string. *)
Theorem commonPrefix_empty :
  Prefix.commonPrefix [] = Some ""
  ∧ ∀ values : list string, ""%string ∈ values → Prefix.commonPrefix values = Some "".
Proof.
  split; [reflexivity|]. intros values Hin.
  rewrite commonPrefix_padded. f_equal.
  now apply padded_prefix_shortest_empty, shortest_empty.
Qed.

Lemma commonPrefix_empty_witness :
  Prefix.commonPrefix ["abc"; ""; "abd"] = Some "".
Proof.
  apply (proj2 commonPrefix_empty ["abc"; ""; "abd"]).
  apply list_elem_of_In. simpl. auto.
Defined.

(** ** [prettyBytes] *)

(** C3: whatever calls the instance has served before, [prettyBytes(b)]
    returns, for every integer [b] and so for every [int64], the string of
    the specification: [float64(b)] divided by 1024 while the quotient is at
    least 1 and the unit is below PB, printed with two decimals and its
    unit.  The unit never goes beyond PB; every input from [1 << 50] on is
    reported in PB, as a number that is at least 1 and may be 1024 or more
    ([1 << 60] gives ["1024.00PB"]); 1023, 1024 and 1024*1024 give
    ["1023.00B"], ["1.00KB"] and ["1.00MB"]. *)
Theorem prettyBytes_refines_spec :
  (∀ (history : list Z) (b : Z),
      Bytes.prettyBytes history b = Bytes.Done (Bytes.spec_prettyBytes b))
  ∧ (∀ (b : Z) (n : nat),
      snd (Bytes.spec_while n (Bytes.float64_of_int b) 0) ≤ 5)
  ∧ (∀ (bf : Bytes.float64) (fuel : nat),
      Bytes.describe_loop (S fuel) bf 5 = Bytes.Done (Bytes.sprintf_2f bf ++ "PB")%string)
  ∧ (∀ (history : list Z) (b : Z),
      (2 ^ 50 ≤ b < 2 ^ 63)%Z →
      ∃ (m : positive) (e : Z),
        Bytes.normal m e ∧ (-52 ≤ e)%Z
        ∧ Bytes.prettyBytes history b
          = Bytes.Done (Bytes.sprintf_2f (S754_finite false m e) ++ "PB")%string)
  ∧ Bytes.prettyBytes [] (2 ^ 50) = Bytes.Done "1.00PB"
  ∧ Bytes.prettyBytes [] (2 ^ 60) = Bytes.Done "1024.00PB"
  ∧ Bytes.prettyBytes [] 1023 = Bytes.Done "1023.00B"
  ∧ Bytes.prettyBytes [] 1024 = Bytes.Done "1.00KB"
  ∧ Bytes.prettyBytes [] (1024 * 1024) = Bytes.Done "1.00MB".
Proof.
  split; [apply prettyBytes_spec|].
  split; [intros b n; apply spec_while_index; lia|].
  split; [intros bf fuel; apply describe_loop_at_PB|].
  split.
  { intros history b Hb. destruct (spec_prettyBytes_PB b Hb) as (m & e & Hn & He & Hs).
    exists m, e. rewrite prettyBytes_spec, Hs. auto. }
  repeat split; vm_compute; reflexivity.
Qed.

Lemma prettyBytes_refines_spec_witness :
  ∃ (m : positive) (e : Z),
    Bytes.prettyBytes [1024; 5]%Z (2 ^ 62)
    = Bytes.Done (Bytes.sprintf_2f (S754_finite false m e) ++ "PB")%string.
Proof.
  destruct (proj1 (proj2 (proj2 (proj2 prettyBytes_refines_spec))) [1024; 5]%Z (2 ^ 62)%Z)
    as (m & e & _ & _ & H).
  - vm_compute. split; congruence.
  - exists m, e. exact H.
Defined.

(** C9: two calls of the same instance with the same [b] return the same
    string.  The first call leaves its result in the cache under the key
    [b] (computing it when the key was absent) and removes nothing from the
    cache; the second call returns the cached string and leaves the cache
    as it is; and a call that finds [b] in a cache returns the string found
    there, whatever it is, without computing anything. *)
Theorem byteDescription_memoizes (cache : gmap Z string) (b : Z) :
  ∃ (s : string) (cache' : gmap Z string),
    Bytes.byteDescription cache b = Bytes.Done (s, cache')
    ∧ cache' !! b = Some s
    ∧ Bytes.byteDescription cache' b = Bytes.Done (s, cache')
    ∧ cache ⊆ cache'
    ∧ (cache !! b = None → Bytes.describe b = Bytes.Done s ∧ cache' = <[b := s]> cache)
    ∧ (∀ (other : gmap Z string) (cached : string),
         other !! b = Some cached →
         Bytes.byteDescription other b = Bytes.Done (cached, other))
    ∧ (∀ history : list Z,
         Bytes.prettyBytes (history ++ [b]) b = Bytes.prettyBytes history b).
Proof.
  assert (Hhit : ∀ (other : gmap Z string) (cached : string),
             other !! b = Some cached →
             Bytes.byteDescription other b = Bytes.Done (cached, other))
    by (intros other cached; apply byteDescription_hit).
  assert (Htwice : ∀ history : list Z,
             Bytes.prettyBytes (history ++ [b]) b = Bytes.prettyBytes history b)
    by (intros history; now rewrite !prettyBytes_spec).
  destruct (cache !! b) as [s|] eqn:Hb.
  - exists s, cache. rewrite (byteDescription_hit _ _ _ Hb).
    repeat split; auto; discriminate.
  - exists (Bytes.spec_prettyBytes b), (<[b := Bytes.spec_prettyBytes b]> cache).
    rewrite (byteDescription_miss _ _ Hb).
    assert (Hb' : <[b := Bytes.spec_prettyBytes b]> cache !! b
                  = Some (Bytes.spec_prettyBytes b)) by apply lookup_insert_eq.
    rewrite (byteDescription_hit _ _ _ Hb').
    repeat split; auto.
    + now apply insert_subseteq.
    + apply describe_spec.
Qed.

Lemma byteDescription_memoizes_witness :
  ∃ (s : string) (cache' : gmap Z string),
    Bytes.byteDescription ∅ 1024 = Bytes.Done (s, cache')
    ∧ Bytes.byteDescription cache' 1024 = Bytes.Done (s, cache')
    ∧ Bytes.describe 1024 = Bytes.Done s.
Proof.
  destruct (byteDescription_memoizes ∅ 1024) as (s & cache' & H1 & _ & H2 & _ & H3 & _).
  exists s, cache'. split; [exact H1|]. split; [exact H2|].
  apply H3. reflexivity.
Defined.

(** ** [remotePathSplit] *)

(** C7: [remotePathSplit(p)] never panics.  The path is split at each ["/"]
    into components that hold no ["/"] and that, joined with ["/"], give the
    path back unchanged; the last component is the base name and the ones
    before it, joined with ["/"], are the directory.  ["a/b/c"] gives
    [("a/b", "c")], ["onlyname"] gives [("", "onlyname")] and ["a/"] gives
    [("a", "")]. *)
Theorem remotePathSplit_spec :
  (∀ p : string, ∃ (comps : list string) (base : string),
      Go.Split p "/" = (comps ++ [base])%list
      ∧ (∀ c, c ∈ (comps ++ [base])%list → Go.in_cutset "/" c = false)
      ∧ Go.Join (comps ++ [base]) "/" = p
      ∧ PathSplit.remotePathSplit p = Some (Go.Join comps "/", base))
  ∧ PathSplit.remotePathSplit "a/b/c" = Some ("a/b", "c")
  ∧ PathSplit.remotePathSplit "onlyname" = Some ("", "onlyname")
  ∧ PathSplit.remotePathSplit "a/" = Some ("a", "").
Proof.
  split; [|repeat split; reflexivity].
  intros p. destruct (Split_snoc p) as (comps & base & Hsp).
  exists comps, base. split; [exact Hsp|].
  split; [|split].
  - intros c Hc. rewrite <- Hsp, Split_slash in Hc. now apply (split_go_no_slash p).
  - rewrite <- Hsp, Split_slash. apply Join_split_go.
  - now apply remotePathSplit_components.
Qed.

(** ** [readCommentedFile] *)

(** C5 as it is stated fails on a file with a line too long for the
    scanner: the scanner stops there, the function returns no line and no
    error, and the line ["keep-this"] that follows is lost. *)
Lemma readCommentedFile_long_line :
  Commented.readCommentedFile (Commented.os_with Commented.long_text) "rules" "#"
    = ([], None)
  ∧ Commented.readCommentedFile (Commented.os_with Commented.long_text) "rules" "#"
    ≠ (Commented.spec_clauses Commented.long_text "#", None).
Proof.
  assert (H : Commented.readCommentedFile (Commented.os_with Commented.long_text) "rules" "#"
              = ([], None)) by (vm_compute; reflexivity).
  split; [exact H|]. rewrite H. intros Heq.
  apply (f_equal (λ r : list string * option Go.error, length (fst r))) in Heq.
  vm_compute in Heq. discriminate.
Qed.

(** C5, amended: when the file opens and each of its lines is shorter than
    the token buffer of the scanner (64 KiB), [readCommentedFile] returns,
    in order and without error, the lines of the file (ended by ["\n"], a
    ["\r"] before it dropped), trimmed of the spaces around them, that are
    neither empty nor started by the comment marker; a line is skipped
    exactly when, trimmed, it is empty or starts with the marker.  The
    content ["# comment\n\nkeep-this\n  \nkeep-that  \n"] with the marker
    ["#"] gives [["keep-this"; "keep-that"]]. *)
Theorem readCommentedFile_clauses :
  (∀ (os : Commented.OS) (p comment : string) (f : Commented.File),
      Commented.Open os p = (Some f, None) →
      Commented.fits_scanner (Commented.data f) = true →
      Commented.readCommentedFile os p comment
      = (Commented.spec_clauses (Commented.data f) comment, None))
  ∧ (∀ comment line : string,
      Commented.loop_keeps comment line = false
      ↔ line = ""%string ∨ Go.HasPrefix line comment = true)
  ∧ Commented.readCommentedFile (Commented.os_with Commented.sample_text) "rules" "#"
    = (["keep-this"; "keep-that"], None).
Proof.
  split; [|split].
  - intros os p comment f Hopen Hfit.
    unfold Commented.readCommentedFile. rewrite Hopen.
    unfold Commented.NewScanner. now rewrite scan_loop_lines.
  - intros comment line. rewrite loop_keeps_kept. unfold Commented.kept.
    rewrite negb_false_iff, orb_true_iff, String.eqb_eq. reflexivity.
  - reflexivity.
Qed.

Lemma readCommentedFile_clauses_witness :
  Commented.readCommentedFile (Commented.os_with Commented.sample_text) "rules" "#"
  = (Commented.spec_clauses Commented.sample_text "#", None).
Proof.
  apply (proj1 readCommentedFile_clauses (Commented.os_with Commented.sample_text)
               "rules" "#" {| Commented.data := Commented.sample_text |});
    reflexivity.
Defined.

(** C6: [readCommentedFile] returns an error exactly when [os.Open] does:
    when the open fails it returns that failure and no line; when it
    succeeds it returns the lines accumulated by the loop and no error. *)
Theorem readCommentedFile_error (os : Commented.OS) (p comment : string) :
  (snd (Commented.readCommentedFile os p comment) ≠ None
   ↔ snd (Commented.Open os p) ≠ None)
  ∧ (∀ e : Go.error,
      snd (Commented.Open os p) = Some e →
      Commented.readCommentedFile os p comment = ([], Some e))
  ∧ (∀ f : Commented.File,
      Commented.Open os p = (Some f, None) →
      Commented.readCommentedFile os p comment
      = (Commented.scan_loop (Commented.NewScanner f) comment [], None)).
Proof.
  unfold Commented.readCommentedFile.
  destruct (Commented.Open os p) as [[f|] [e|]]; cbn [snd]; repeat split;
    congruence.
Qed.

Lemma readCommentedFile_error_witness :
  Commented.readCommentedFile (Commented.os_failing "open rules: no such file") "rules" "#"
  = ([], Some "open rules: no such file").
Proof.
  apply (proj1 (proj2 (readCommentedFile_error
                         (Commented.os_failing "open rules: no such file") "rules" "#"))).
  reflexivity.
Defined.

(** C10: with the empty string as comment marker, [readCommentedFile]
    returns no line from a file that opens, whatever the file holds: the
    empty string is a prefix of every line. *)
Theorem readCommentedFile_empty_marker (os : Commented.OS) (p : string) (f : Commented.File) :
  Commented.Open os p = (Some f, None) →
  Commented.readCommentedFile os p "" = ([], None).
Proof.
  intros Hopen. unfold Commented.readCommentedFile. rewrite Hopen.
  rewrite scan_loop_spec, app_nil_l. f_equal.
  induction (map Commented.loop_trim (Commented.NewScanner f)) as [|l ls IH]; [reflexivity|].
  rewrite filter_cons_False; [exact IH|].
  unfold Commented.loop_keeps. rewrite HasPrefix_empty. discriminate.
Qed.

Lemma readCommentedFile_empty_marker_witness :
  Commented.readCommentedFile (Commented.os_with Commented.sample_text) "rules" ""
  = ([], None).
Proof.
  apply (readCommentedFile_empty_marker (Commented.os_with Commented.sample_text)
           "rules" {| Commented.data := Commented.sample_text |}).
  reflexivity.
Defined.

(** ** [serializeAsDesktopEntry] *)

(** C4 as it is stated fails for a display name that holds a newline: the
    fields are copied as they are, and the file written for the name
    ["Doc\nExec=sh -c evil"] has six lines, one of them a key [Exec=], and
    not a header followed by the four lines [Icon=], [Name=], [Type=],
    [URL=]. *)
Lemma serializeAsDesktopEntry_newline_in_name :
  ∃ (os' : Desktop.OS) (text : string),
    Desktop.serializeAsDesktopEntry "Link" "/" Desktop.empty_os
      {| Desktop.Name := Misc.name_with_newline |} "Doc.desktop"
      {| Desktop.ext := "pdf"; Desktop.mimeType := "application/pdf";
         Desktop.url := "http://x/y" |}
    = (os', (Z.of_nat (Go.len text), None))
    ∧ Desktop.files os' !! "Doc.desktop" = Some text
    ∧ Commented.lines text
      = [ "[Desktop Entry]"; "Icon=application-pdf"; "Name=Doc";
          "Exec=sh -c evil-pdf"; "Type=Link"; "URL=http://x/y" ]
    ∧ ∀ icon name type url : string,
        Commented.lines text
        ≠ [ "[Desktop Entry]"; ("Icon=" ++ icon)%string; ("Name=" ++ name)%string;
            ("Type=" ++ type)%string; ("URL=" ++ url)%string ].
Proof.
  destruct (Write_created Desktop.empty_os "Doc.desktop"
              (Desktop.unlines
                 (Desktop.spec_lines "Link" "/" Misc.name_with_newline "http://x/y"
                    "application/pdf" "pdf")) eq_refl eq_refl) as (os' & Hw & Hfile).
  exists os'. eexists. split; [|split; [exact Hfile|]].
  - rewrite (serializeAsDesktopEntry_unfold "Link" "/") by reflexivity. exact Hw.
  - assert (Hlines : Commented.lines
                       (Desktop.unlines
                          (Desktop.spec_lines "Link" "/" Misc.name_with_newline
                             "http://x/y" "application/pdf" "pdf"))
                     = [ "[Desktop Entry]"; "Icon=application-pdf"; "Name=Doc";
                         "Exec=sh -c evil-pdf"; "Type=Link"; "URL=http://x/y" ])
      by (vm_compute; reflexivity).
    split; [exact Hlines|].
    intros icon name type url. rewrite Hlines. discriminate.
Qed.

(** C4, amended: for every display name, URL, content type and extension
    that hold no newline (the type marker holding none either), when the
    destination can be created and the write is not cut short,
    [serializeAsDesktopEntry] returns the length of the text and no error,
    and the lines of the destination file are then exactly five: the header
    line and the four lines [Icon=], [Name=], [Type=], [URL=], in this
    order, each ended by ["\n"]; the name is the display name followed by
    ["-"] and the extension when the extension is not empty and the display
    name otherwise, the icon is the content type with each path separator
    replaced by ["-"].  With the separator ["/"], the name ["Doc"], the
    extension ["pdf"] and the content type ["application/pdf"] give the
    lines [Icon=application-pdf] and [Name=Doc-pdf]. *)
Theorem serializeAsDesktopEntry_five_lines
        (LinkKey : string) (PathSeparator : ascii) :
  (∀ (os : Desktop.OS) (f : Desktop.File) (destPath : string) (u : Desktop.urlMimeTypeExt),
      let ls := Desktop.spec_lines LinkKey PathSeparator (Desktop.Name f)
                  (Desktop.url u) (Desktop.mimeType u) (Desktop.ext u) in
      Commented.free_of Go.LF (Desktop.Name f) →
      Commented.free_of Go.LF (Desktop.url u) →
      Commented.free_of Go.LF (Desktop.mimeType u) →
      Commented.free_of Go.LF (Desktop.ext u) →
      Commented.free_of Go.LF LinkKey →
      Desktop.create_error os destPath = None →
      Desktop.write_completes os (Desktop.unlines ls) = true →
      ∃ (os' : Desktop.OS) (text : string),
        Desktop.serializeAsDesktopEntry LinkKey PathSeparator os f destPath u
        = (os', (Z.of_nat (Go.len text), None))
        ∧ Desktop.files os' !! destPath = Some text
        ∧ text = Desktop.unlines ls
        ∧ Commented.lines text = ls
        ∧ length (Commented.lines text) = 5)
  ∧ Desktop.spec_lines LinkKey "/" "Doc" "http://x/y" "application/pdf" "pdf"
    = [ "[Desktop Entry]"; "Icon=application-pdf"; "Name=Doc-pdf";
        ("Type=" ++ LinkKey)%string; "URL=http://x/y" ].
Proof.
  split; [|reflexivity].
  intros os f destPath u ls Hn Hu Hm He Hk Hc Hw.
  destruct (Write_created os destPath (Desktop.unlines ls) Hc Hw) as (os' & Hwrite & Hfile).
  assert (Hlines : Commented.lines (Desktop.unlines ls) = ls).
  { apply lines_unlines. intros l Hl.
    now apply (spec_lines_free_LF LinkKey PathSeparator (Desktop.Name f) (Desktop.url u)
                 (Desktop.mimeType u) (Desktop.ext u)). }
  exists os', (Desktop.unlines ls).
  split; [rewrite serializeAsDesktopEntry_unfold by exact Hc; exact Hwrite|].
  split; [exact Hfile|]. split; [reflexivity|]. split; [exact Hlines|].
  now rewrite Hlines.
Qed.

Lemma serializeAsDesktopEntry_five_lines_witness :
  ∃ (os' : Desktop.OS) (text : string),
    Desktop.serializeAsDesktopEntry "Link" "/" Desktop.empty_os
      {| Desktop.Name := "Doc" |} "Doc.desktop"
      {| Desktop.ext := "pdf"; Desktop.mimeType := "application/pdf";
         Desktop.url := "http://x/y" |}
    = (os', (Z.of_nat (Go.len text), None))
    ∧ Desktop.files os' !! "Doc.desktop" = Some text
    ∧ Commented.lines text
      = [ "[Desktop Entry]"; "Icon=application-pdf"; "Name=Doc-pdf"; "Type=Link";
          "URL=http://x/y" ].
Proof.
  destruct (proj1 (serializeAsDesktopEntry_five_lines "Link" "/") Desktop.empty_os
              {| Desktop.Name := "Doc" |} "Doc.desktop"
              {| Desktop.ext := "pdf"; Desktop.mimeType := "application/pdf";
                 Desktop.url := "http://x/y" |})
    as (os' & text & H1 & H2 & _ & H3 & _); try reflexivity.
  exists os', text. split; [exact H1|]. split; [exact H2 | exact H3].
Defined.

(** * Further properties of the functions of [misc.go] *)

(** ** [commonPrefix] *)

(** X1: [commonPrefix] returns the longest common prefix of its arguments
    exactly when the shortest argument begins all of them, and it then
    returns the shortest argument. *)
Theorem commonPrefix_exact_iff (values : list string) :
  (Prefix.commonPrefix values = Some (Prefix.common_prefix_spec values)
   ↔ Misc.common_prefix (Prefix.shortest values) values)
  ∧ (Misc.common_prefix (Prefix.shortest values) values →
     Prefix.commonPrefix values = Some (Prefix.shortest values)).
Proof.
  assert (Hiff : Prefix.commonPrefix values = Some (Prefix.common_prefix_spec values)
                 ↔ Misc.common_prefix (Prefix.shortest values) values).
  { rewrite commonPrefix_meets_spec_iff. apply first_mismatch_full. }
  split; [exact Hiff|]. intros Hall.
  rewrite (proj2 Hiff Hall). f_equal. unfold Prefix.common_prefix_spec, Prefix.slice_to.
  rewrite (proj2 (first_mismatch_full _ _) Hall). apply substring_0_all.
Qed.

Lemma commonPrefix_exact_iff_witness :
  Prefix.commonPrefix ["abc"; "abcdef"; "abcx"] = Some "abc".
Proof.
  apply (proj2 (commonPrefix_exact_iff ["abc"; "abcdef"; "abcx"])).
  intros v Hv. apply list_elem_of_In in Hv. simpl in Hv.
  destruct Hv as [<-|[<-|[<-|[]]]]; reflexivity.
Defined.

(** X2: for at least one argument, what [commonPrefix] returns is the
    longest common prefix of the arguments followed by NUL bytes only: that
    prefix begins every argument, and every string that begins all the
    arguments begins it. *)
Theorem commonPrefix_starts_with_longest (v0 : string) (rest : list string) :
  let values := v0 :: rest in
  let lcp := Prefix.common_prefix_spec values in
  (∃ n, Prefix.commonPrefix values = Some (lcp ++ Prefix.nuls n)%string)
  ∧ Misc.common_prefix lcp values
  ∧ (∀ s, Misc.common_prefix s values → String.prefix s lcp = true).
Proof.
  intros values lcp. split; [|split].
  - eexists. rewrite commonPrefix_padded. reflexivity.
  - intros v Hv. now apply common_prefix_spec_common.
  - intros s Hs. now apply common_prefix_spec_longest.
Qed.

Lemma commonPrefix_starts_with_longest_witness :
  String.prefix "ab" (Prefix.common_prefix_spec ["abcdef"; "abcxyz"; "abc123"]) = true.
Proof.
  apply (proj2 (proj2 (commonPrefix_starts_with_longest "abcdef" ["abcxyz"; "abc123"]))).
  intros v Hv. apply list_elem_of_In in Hv. simpl in Hv.
  destruct Hv as [<-|[<-|[<-|[]]]]; reflexivity.
Defined.

(** X3: called with one argument, or with several arguments that are all
    the same string, [commonPrefix] returns that string. *)
Theorem commonPrefix_same (s : string) (values : list string) :
  values ≠ [] → (∀ v, v ∈ values → v = s) → Prefix.commonPrefix values = Some s.
Proof.
  intros Hne Hall.
  assert (Hm : Prefix.shortest values = s) by now apply shortest_all_equal.
  assert (Hcommon : ∀ v, v ∈ values → String.prefix (Prefix.shortest values) v = true).
  { intros v Hv. rewrite Hm, (Hall v Hv).
    apply prefix_iff_agree, agree_refl. }
  rewrite commonPrefix_padded. f_equal. unfold Prefix.padded_prefix, Prefix.slice_to.
  rewrite (proj2 (first_mismatch_full _ _) Hcommon), Nat.sub_diag, substring_0_all, Hm.
  change (Prefix.nuls 0) with ""%string. apply string_app_nil_r.
Qed.

Lemma commonPrefix_same_witness :
  Prefix.commonPrefix ["same"; "same"] = Some "same".
Proof.
  apply (commonPrefix_same "same" ["same"; "same"]); [discriminate|].
  intros v Hv. apply list_elem_of_In in Hv. simpl in Hv.
  destruct Hv as [<-|[<-|[]]]; reflexivity.
Defined.

(** ** [remotePathSplit], [sepJoin] *)

(** X4: [remotePathSplit(p)] never fails; its base name holds no ["/"];
    when [p] holds a ["/"], [p] is the directory, a ["/"] and the base name,
    and otherwise the directory is empty and the base name is [p]. *)
Theorem remotePathSplit_recombines (p : string) :
  ∃ dir base,
    PathSplit.remotePathSplit p = Some (dir, base)
    ∧ Go.in_cutset "/" base = false
    ∧ (if Go.in_cutset "/" p then p = (dir ++ String "/" base)%string
       else dir = ""%string ∧ base = p).
Proof. apply remotePathSplit_inverse. Qed.

(** X5: splitting the path that [sepJoin] makes of a directory and of a base
    name without ["/"] gives the two back, whatever the directory. *)
Theorem remotePathSplit_sepJoin (dir base : string) :
  Go.in_cutset "/" base = false →
  PathSplit.remotePathSplit (Desktop.sepJoin "/" [dir; base]) = Some (dir, base).
Proof.
  intros Hbase. unfold Desktop.sepJoin. cbn [Go.Join].
  change (dir ++ "/" ++ base)%string with (dir ++ String "/" base)%string.
  now apply remotePathSplit_join.
Qed.

Lemma remotePathSplit_sepJoin_witness :
  PathSplit.remotePathSplit (Desktop.sepJoin "/" ["a//b/"; "c.txt"]) = Some ("a//b/", "c.txt").
Proof. apply (remotePathSplit_sepJoin "a//b/" "c.txt"). reflexivity. Defined.

(** X6: [strings.Split] undoes [sepJoin]: the components of the join, with
    ["/"], of one or more strings without ["/"] are these strings. *)
Theorem Split_sepJoin (args : list string) :
  args ≠ [] →
  (∀ a, a ∈ args → Go.in_cutset "/" a = false) →
  Go.Split (Desktop.sepJoin "/" args) "/" = args.
Proof. intros Hne Hfree. unfold Desktop.sepJoin. now apply Split_Join. Qed.

Lemma Split_sepJoin_witness :
  Go.Split (Desktop.sepJoin "/" ["usr"; ""; "lib"]) "/" = ["usr"; ""; "lib"].
Proof.
  apply (Split_sepJoin ["usr"; ""; "lib"]); [discriminate|].
  intros a Ha. apply list_elem_of_In in Ha. simpl in Ha.
  destruct Ha as [<-|[<-|[<-|[]]]]; reflexivity.
Defined.

(** ** [isHidden] *)

(** X7: a path is hidden exactly when [ignore] is false and the path starts
    with a dot; with [ignore] set nothing is hidden, and the empty path
    never is. *)
Theorem isHidden_iff (p : string) (ignore : bool) :
  Misc.isHidden p ignore = true ↔ ignore = false ∧ ∃ rest, p = String "." rest.
Proof.
  unfold Misc.isHidden, Go.HasPrefix.
  destruct p as [|c p].
  - cbn. split; [discriminate | intros (_ & rest & H); discriminate].
  - rewrite prefix_cons, prefix_nil_l, andb_true_r.
    destruct (Ascii.eqb_spec "." c) as [<-|Hne].
    + destruct ignore; cbn; split; try discriminate; eauto.
      intros [H _]. discriminate.
    + split; [discriminate|]. intros (_ & rest & [= H _]). congruence.
Qed.

Lemma isHidden_iff_witness : Misc.isHidden ".git" false = true.
Proof.
  apply (proj2 (isHidden_iff ".git" false)). split; [reflexivity|].
  exists "git"%string. reflexivity.
Defined.

(** ** [memoizeBytes], [prettyBytes] *)

(** X8: for every positive [int64], whatever calls came before, the unit
    that [prettyBytes] prints is the one of index [log2(b) / 10], PB at
    most.  The number printed is a normal [float64] [m * 2^e] that is at
    least 1 ([-52 <= e]), and below [1 << 50] it is less than 1024
    ([e < -42]). *)
Theorem prettyBytes_unit (history : list Z) (b : Z) :
  (1 ≤ b < 2 ^ 63)%Z →
  ∃ (m : positive) (e : Z),
    Bytes.normal m e ∧ (-52 ≤ e)%Z ∧ ((b < 2 ^ 50)%Z → (e < -42)%Z)
    ∧ Bytes.prettyBytes history b
      = Bytes.Done (Bytes.sprintf_2f (S754_finite false m e)
                    ++ Bytes.spec_unit (Z.to_nat (Z.min (Z.log2 b / 10) 5)))%string.
Proof.
  intros Hb. destruct (spec_prettyBytes_unit b Hb) as (m & e & Hn & He & Hlt & Hs).
  exists m, e. split; [exact Hn|]. split; [exact He|]. split.
  - intros H50. apply Hlt. apply Z.log2_lt_pow2; lia.
  - now rewrite prettyBytes_spec, Hs.
Qed.

Lemma prettyBytes_unit_witness :
  ∃ (m : positive) (e : Z),
    Bytes.prettyBytes [] 5000000 = Bytes.Done (Bytes.sprintf_2f (S754_finite false m e) ++ "MB")%string.
Proof.
  destruct (prettyBytes_unit [] 5000000) as (m & e & _ & _ & _ & H).
  - vm_compute. split; congruence.
  - exists m, e. exact H.
Defined.

(** X9: a count that is zero or negative is never scaled: [prettyBytes]
    prints [float64(b)] itself, with the unit B. *)
Theorem prettyBytes_nonpositive (history : list Z) (b : Z) :
  (b ≤ 0)%Z →
  Bytes.prettyBytes history b
  = Bytes.Done (Bytes.sprintf_2f (Bytes.float64_of_int b) ++ "B")%string.
Proof.
  intros Hb. now rewrite prettyBytes_spec, spec_prettyBytes_nonpositive.
Qed.

Lemma prettyBytes_nonpositive_witness :
  Bytes.prettyBytes [] (-5000000)
  = Bytes.Done (Bytes.sprintf_2f (Bytes.float64_of_int (-5000000)) ++ "B")%string.
Proof. apply (prettyBytes_nonpositive [] (-5000000)). vm_compute. discriminate. Defined.

(** X10: a count from 0 to 1023 is printed as its decimal digits followed
    by [.00B], and a negative count above [-(1 << 53)] as a minus sign, the
    digits of its magnitude and [.00B]. *)
Theorem prettyBytes_exact (history : list Z) (b : Z) :
  ((0 ≤ b < 1024)%Z →
   Bytes.prettyBytes history b = Bytes.Done (Go.decimal (Z.to_N b) ++ ".00B")%string)
  ∧ ((- 2 ^ 53 < b < 0)%Z →
     Bytes.prettyBytes history b
     = Bytes.Done ("-" ++ Go.decimal (Z.to_N (- b)) ++ ".00B")%string).
Proof.
  split; intros Hb; rewrite prettyBytes_spec.
  - now rewrite spec_prettyBytes_small.
  - now rewrite spec_prettyBytes_negative.
Qed.

Lemma prettyBytes_exact_witness :
  Bytes.prettyBytes [] 1023 = Bytes.Done (Go.decimal 1023 ++ ".00B")%string.
Proof. apply (proj1 (prettyBytes_exact [] 1023)). vm_compute. split; congruence. Defined.

(** X11: memoization is not observable: what [prettyBytes(b)] returns does
    not depend on the calls made before. *)
Theorem prettyBytes_history_independent (history history' : list Z) (b : Z) :
  Bytes.prettyBytes history b = Bytes.prettyBytes history' b.
Proof. now rewrite !prettyBytes_spec. Qed.

(** X12: the cache of the instance holds an entry for each input of the
    calls made so far and for nothing else, and the entry of an input is
    the string that a fresh instance returns for it. *)
Theorem prettyBytes_cache_content (history : list Z) (k : Z) (s : string) :
  Bytes.prettyBytes_cache history !! k = Some s
  ↔ k ∈ history ∧ Bytes.prettyBytes [] k = Bytes.Done s.
Proof.
  rewrite prettyBytes_cache_lookup, prettyBytes_spec.
  case_decide as Hin.
  - split; [intros [= <-]; auto | intros [_ [= <-]]; reflexivity].
  - split; [discriminate | intros [? _]; contradiction].
Qed.

Lemma prettyBytes_cache_content_witness :
  Bytes.prettyBytes_cache [1024; 5; 1024]%Z !! 5%Z = Some "5.00B"%string.
Proof.
  apply (proj2 (prettyBytes_cache_content [1024; 5; 1024]%Z 5%Z "5.00B")).
  split; [|vm_compute; reflexivity].
  apply list_elem_of_In. simpl. auto.
Defined.

(** ** [readCommentedFile] *)

(** X13: whatever the file holds, no clause that [readCommentedFile]
    returns is empty, starts with the comment marker, starts or ends with a
    space, or holds a newline. *)
Theorem readCommentedFile_clause_shape (os : Commented.OS) (p comment c : string) :
  c ∈ fst (Commented.readCommentedFile os p comment) →
  c ≠ ""%string
  ∧ Go.HasPrefix c comment = false
  ∧ Misc.first_byte c ≠ Some " "%char
  ∧ Misc.last_byte c ≠ Some " "%char
  ∧ Commented.free_of Go.LF c.
Proof.
  unfold Commented.readCommentedFile.
  destruct (Commented.Open os p) as [[f|] [e|]]; cbn [fst]; intros Hc;
    [inversion Hc | | inversion Hc | inversion Hc]. apply (scan_loop_clause (Commented.NewScanner f) comment c); [|exact Hc].
  intros t Ht.
  apply (scan_lines_free (Commented.data f) [] t); [|exact Ht].
  intros H; inversion H.
Qed.

Lemma readCommentedFile_clause_shape_witness :
  Misc.last_byte "keep-that" ≠ Some " "%char.
Proof.
  apply (readCommentedFile_clause_shape (Commented.os_with Commented.sample_text)
           "rules" "#" "keep-that").
  apply list_elem_of_In. vm_compute. auto.
Defined.

(** X14: on every file that opens, [readCommentedFile] returns without
    error an initial part of the clauses of the whole text: clauses are lost
    only at the end, never skipped or reordered. *)
Theorem readCommentedFile_initial (os : Commented.OS) (p comment : string)
                                  (f : Commented.File) :
  Commented.Open os p = (Some f, None) →
  ∃ lost,
    Commented.spec_clauses (Commented.data f) comment
    = (fst (Commented.readCommentedFile os p comment) ++ lost)%list
    ∧ snd (Commented.readCommentedFile os p comment) = None.
Proof.
  intros Hopen. unfold Commented.readCommentedFile. rewrite Hopen. cbn [fst snd].
  destruct (scan_loop_initial (Commented.data f) comment) as [lost Hlost].
  exists lost. split; [exact Hlost | reflexivity].
Qed.

Lemma readCommentedFile_initial_witness :
  ∃ lost,
    Commented.spec_clauses Commented.sample_text "#"
    = (fst (Commented.readCommentedFile (Commented.os_with Commented.sample_text) "rules" "#")
       ++ lost)%list.
Proof.
  destruct (readCommentedFile_initial (Commented.os_with Commented.sample_text) "rules" "#"
              {| Commented.data := Commented.sample_text |} eq_refl) as (lost & H & _).
  exists lost. exact H.
Defined.

(** X18: a file whose lines end with ["\r\n"] is read as the same file
    with lines ending with ["\n"] (the text holding no other ["\r"] and its
    lines fitting in the scanner). *)
Theorem readCommentedFile_crlf (os os' : Commented.OS) (p p' comment : string)
                               (f f' : Commented.File) :
  Commented.Open os p = (Some f, None) →
  Commented.Open os' p' = (Some f', None) →
  Commented.data f = Misc.crlf (Commented.data f') →
  Commented.free_of Go.CR (Commented.data f') →
  Commented.fits_scanner (Commented.data f) = true →
  Commented.readCommentedFile os p comment = Commented.readCommentedFile os' p' comment.
Proof.
  intros Hopen Hopen' Hdata Hfree Hfit. unfold Commented.readCommentedFile.
  rewrite Hopen, Hopen'. unfold Commented.NewScanner. rewrite Hdata in *.
  now rewrite scan_loop_crlf.
Qed.

Lemma readCommentedFile_crlf_witness :
  Commented.readCommentedFile (Commented.os_with (Misc.crlf Commented.sample_text)) "rules" "#"
  = Commented.readCommentedFile (Commented.os_with Commented.sample_text) "rules" "#".
Proof.
  apply (readCommentedFile_crlf
           (Commented.os_with (Misc.crlf Commented.sample_text))
           (Commented.os_with Commented.sample_text) "rules" "rules" "#"
           {| Commented.data := Misc.crlf Commented.sample_text |}
           {| Commented.data := Commented.sample_text |});
    reflexivity.
Defined.

(** ** [toDesktopEntry], [serializeAsDesktopEntry] *)

(** X19: [toDesktopEntry] copies the URL, and the content type as icon,
    unchanged; the name of the entry starts with the name of the file, is
    that name exactly when the extension is empty, and otherwise is longer
    by the extension and one joiner. *)
Theorem toDesktopEntry_fields (f : Desktop.File) (u : Desktop.urlMimeTypeExt) :
  let entry := Desktop.toDesktopEntry f u in
  Desktop.de_url entry = Desktop.url u
  ∧ Desktop.de_icon entry = Desktop.mimeType u
  ∧ String.prefix (Desktop.Name f) (Desktop.de_name entry) = true
  ∧ (Desktop.de_name entry = Desktop.Name f ↔ Desktop.ext u = ""%string)
  ∧ Go.len (Desktop.de_name entry)
    = Go.len (Desktop.Name f)
      + (if String.eqb (Desktop.ext u) "" then 0 else 1 + Go.len (Desktop.ext u)).
Proof.
  intros entry. subst entry. rewrite toDesktopEntry_spec.
  cbn [Desktop.de_url Desktop.de_icon Desktop.de_name]. unfold Desktop.spec_name.
  split; [reflexivity|]. split; [reflexivity|].
  destruct (String.eqb (Desktop.ext u) "") eqn:Hext.
  - apply String.eqb_eq in Hext.
    split; [apply prefix_iff_agree, agree_refl|]. split; [tauto | lia].
  - apply String.eqb_neq in Hext.
    split; [apply prefix_append|]. split.
    + split; [|contradiction]. intros H%string_app_cancel_nil. discriminate.
    + rewrite !len_append. reflexivity.
Qed.



(** X15: when [os.Create] fails, [serializeAsDesktopEntry] returns 0 and
    that error, and the file system is left as it was. *)
Theorem serializeAsDesktopEntry_create_fails
        (LinkKey : string) (PathSeparator : ascii) (os : Desktop.OS) (f : Desktop.File)
        (destPath : string) (u : Desktop.urlMimeTypeExt) (e : Go.error) :
  Desktop.create_error os destPath = Some e →
  Desktop.serializeAsDesktopEntry LinkKey PathSeparator os f destPath u
  = (os, (0%Z, Some e)).
Proof. apply serializeAsDesktopEntry_refused. Qed.

Lemma serializeAsDesktopEntry_create_fails_witness :
  let os := {| Desktop.files := ∅;
               Desktop.create_error := λ _, Some "permission denied"%string;
               Desktop.write_fault := None |} in
  Desktop.serializeAsDesktopEntry "Link" "/" os {| Desktop.Name := "Doc" |} "Doc.desktop"
    {| Desktop.ext := "pdf"; Desktop.mimeType := "application/pdf";
       Desktop.url := "http://x/y" |}
  = (os, (0%Z, Some "permission denied"%string)).
Proof.
  intros os.
  apply (serializeAsDesktopEntry_create_fails "Link" "/" os). reflexivity.
Defined.

(** X16: the icon that [serializeAsDesktopEntry] computes from the content
    type holds no path separator (the separator not being ["-"] itself),
    is as long as the content type, and is the content type itself when
    that holds no separator. *)
Theorem icon_has_no_separator (PathSeparator : ascii) (contentType : string) :
  let icon := Go.Replace contentType (Desktop.UnescapedPathSep PathSeparator)
                         Desktop.MimeTypeJoiner (-1) in
  (PathSeparator ≠ "-"%char → Go.in_cutset PathSeparator icon = false)
  ∧ Go.len icon = Go.len contentType
  ∧ (Go.in_cutset PathSeparator contentType = false → icon = contentType).
Proof.
  intros icon. subst icon. rewrite Replace_icon.
  split; [apply spec_icon_free|]. split; [apply spec_icon_len | apply spec_icon_id].
Qed.

Lemma icon_has_no_separator_witness :
  Go.in_cutset "/" (Go.Replace "application/vnd.x/y" (Desktop.UnescapedPathSep "/")
                               Desktop.MimeTypeJoiner (-1)) = false.
Proof.
  apply (proj1 (icon_has_no_separator "/" "application/vnd.x/y")). discriminate.
Defined.



(** X20: whatever the fields hold, when the destination can be created and
    the write is not cut short, [serializeAsDesktopEntry] returns the length
    of the text and no error, and the destination file then holds exactly
    the text of the format: the header, [Icon=] and the icon, [Name=] and
    the name, [Type=] and the type marker, [URL=] and the URL, each followed
    by ["\n"], the fields being copied as they are, without any escaping,
    and what the file held before being gone. *)
Theorem serializeAsDesktopEntry_writes
        (LinkKey : string) (PathSeparator : ascii) :
  (∀ (os : Desktop.OS) (f : Desktop.File) (destPath : string) (u : Desktop.urlMimeTypeExt),
      let text := Desktop.unlines
                    (Desktop.spec_lines LinkKey PathSeparator (Desktop.Name f)
                       (Desktop.url u) (Desktop.mimeType u) (Desktop.ext u)) in
      Desktop.create_error os destPath = None →
      Desktop.write_completes os text = true →
      ∃ os', Desktop.serializeAsDesktopEntry LinkKey PathSeparator os f destPath u
             = (os', (Z.of_nat (Go.len text), None))
             ∧ Desktop.files os' !! destPath = Some text)
  ∧ Desktop.spec_lines LinkKey "/" "Doc" "http://x/y" "application/pdf" "pdf"
    = [ "[Desktop Entry]"; "Icon=application-pdf"; "Name=Doc-pdf";
        ("Type=" ++ LinkKey)%string; "URL=http://x/y" ].
Proof.
  split; [|reflexivity].
  intros os f destPath u text Hc Hw.
  rewrite serializeAsDesktopEntry_unfold by exact Hc.
  now apply Write_created.
Qed.

Lemma serializeAsDesktopEntry_writes_witness :
  ∃ os', Desktop.serializeAsDesktopEntry "Link" "/" Desktop.empty_os
           {| Desktop.Name := "Doc" |} "Doc.desktop"
           {| Desktop.ext := "pdf"; Desktop.mimeType := "application/pdf";
              Desktop.url := "http://x/y" |}
         = (os', (75%Z, None))
         ∧ Desktop.files os' !! "Doc.desktop"
           = Some (Desktop.unlines [ "[Desktop Entry]"; "Icon=application-pdf";
                                     "Name=Doc-pdf"; "Type=Link"; "URL=http://x/y" ]).
Proof.
  apply (proj1 (serializeAsDesktopEntry_writes "Link" "/") Desktop.empty_os
               {| Desktop.Name := "Doc" |} "Doc.desktop"
               {| Desktop.ext := "pdf"; Desktop.mimeType := "application/pdf";
                  Desktop.url := "http://x/y" |});
    reflexivity.
Defined.
